(** * A068994: powers of two whose last DIGITS decimal digits are all even

    Shallow embedding of [A068994/main.c] and the properties of its
    digit-buffer multiplier [times16] and of the worker loop of [main].

    Conventions of the embedding.
    - C [int] and [long long] values are integers of [Z].  Signed overflow is
      undefined behaviour in C; every signed operation of the source is
      checked by [int] or [llong] and yields the error [Overflow] when the
      exact result leaves the type's range.
    - An access [tail[i]] outside the array yields the error [OutOfBounds].
    - Loops run on binary fuel; a loop whose condition still holds when the
      fuel is spent yields [OutOfFuel], so a result [Ok] always is the state
      at a real loop exit.
    - The digit array [tail] is a [list Z], index 0 first; standard output is
      the list of characters a worker has written, oldest first.  Each worker
      is given its own stream: how the four streams interleave on the shared
      standard output is not modelled. *)

From Stdlib Require Import ZArith NArith List Lia Ascii String.
From stdpp Require Import base tactics option numbers list strings pretty.

Local Open Scope Z_scope.

(** ** Errors and results *)

Inductive error : Type :=
| Overflow       (* signed arithmetic left the range of its type *)
| OutOfBounds    (* array access outside the array *)
| BadArraySize   (* variable-length array of non-positive size *)
| OutOfFuel.     (* the model stopped a loop that had not finished *)

Inductive result (A : Type) : Type :=
| Ok (a : A)
| Err (e : error).
Arguments Ok {A} a.
Arguments Err {A} e.

Global Instance result_ret : MRet result := fun A a => Ok a.
Global Instance result_bind : MBind result := fun A B f r =>
  match r with
  | Ok a => f a
  | Err e => Err e
  end.

(** ** Machine integers *)

Definition INT_MIN : Z := -2147483648.
Definition INT_MAX : Z := 2147483647.
Definition LLONG_MIN : Z := -9223372036854775808.
Definition LLONG_MAX : Z := 9223372036854775807.

(** The value of an [int] expression whose exact value is [z]. *)
Definition int (z : Z) : result Z :=
  if bool_decide (INT_MIN ≤ z ≤ INT_MAX) then Ok z else Err Overflow.

(** The value of a [long long] expression whose exact value is [z]. *)
Definition llong (z : Z) : result Z :=
  if bool_decide (LLONG_MIN ≤ z ≤ LLONG_MAX) then Ok z else Err Overflow.

(** ** Global variables *)

Record globals : Type := { DIGITS : Z; BATCH : Z }.

(** [int DIGITS = 40; long long BATCH = 1'000'000'000;] *)
Definition program_globals : globals :=
  {| DIGITS := 40; BATCH := 1000000000 |}.

(** ** Arrays and standard output *)

(** [tail[i]] read. *)
Definition load (tail : list Z) (i : Z) : result Z :=
  if bool_decide (0 ≤ i) then
    match tail !! Z.to_nat i with
    | Some x => Ok x
    | None => Err OutOfBounds
    end
  else Err OutOfBounds.

(** [tail[i] = x]. *)
Definition store (tail : list Z) (i : Z) (x : Z) : result (list Z) :=
  if bool_decide (0 ≤ i < Z.of_nat (length tail)) then
    Ok (<[Z.to_nat i := x]> tail)
  else Err OutOfBounds.

Definition stdout : Type := list ascii.

(** [putchar(c)]: the character written is [c] converted to
    [unsigned char]. *)
Definition putchar (c : Z) (out : stdout) : stdout :=
  out ++ [ascii_of_N (Z.to_N (c mod 256))].

(** ** Loops *)

Section loops.
Context {St : Type}.
Variable cond : St → bool.
Variable body : St → result St.

(** One test of the loop condition, followed by the body when it holds.
    A state at which the condition fails is left as it is. *)
Definition loop_step (r : result St) : result St :=
  s ← r; if cond s then body s else Ok s.

(** [while (cond) body], stopped after [fuel] rounds. *)
Definition while (fuel : N) (s : St) : result St :=
  s' ← N.iter fuel loop_step (Ok s);
  if cond s' then Err OutOfFuel else Ok s'.
End loops.

(** ** [times16] *)

(** The array and the local variables of [times16] during its first loop. *)
Record locals : Type := Locals {
  l_i : Z;
  l_tail : list Z;
  l_carry : Z;
  l_good : Z
}.

(** Lines 35 to 42, followed by the [i++] of line 34.  C's [/] and [%]
    truncate towards zero: [Z.quot] and [Z.rem]. *)
Definition times16_body (s : locals) : result locals :=
  let i := l_i s in
  let tail := l_tail s in
  (* next_carry = tail[i]; *)
  next_carry ← load tail i;
  (* tail[i] *= 6; *)
  x ← load tail i; x ← int (x * 6); tail ← store tail i x;
  (* tail[i] += carry; *)
  x ← load tail i; x ← int (x + l_carry s); tail ← store tail i x;
  (* next_carry += tail[i] / 10; *)
  x ← load tail i; next_carry ← int (next_carry + x ÷ 10);
  (* tail[i] %= 10; *)
  x ← load tail i; tail ← store tail i (Z.rem x 10);
  (* good &= tail[i] % 2 == 0; *)
  x ← load tail i;
  let good := Z.land (l_good s) (if bool_decide (Z.rem x 2 = 0) then 1 else 0) in
  (* carry = next_carry; *)
  let carry := next_carry in
  (* i++ *)
  i ← int (i + 1);
  Ok {| l_i := i; l_tail := tail; l_carry := carry; l_good := good |}.

(** Line 47 followed by the [j--] of line 46; ['0'] is 48. *)
Definition print_body (tail : list Z) (s : Z * stdout) : result (Z * stdout) :=
  let '(j, out) := s in
  x ← load tail j;
  c ← int (x + 48);
  j ← int (j - 1);
  Ok (j, putchar c out).

(** [i < DIGITS], the condition of the loop of line 34. *)
Definition times16_cond (g : globals) (s : locals) : bool :=
  bool_decide (l_i s < DIGITS g).

(** [int carry = 0, next_carry; int good = 1;] and [int i = 0]. *)
Definition times16_init (tail : list Z) : locals :=
  {| l_i := 0; l_tail := tail; l_carry := 0; l_good := 1 |}.

(** The locals after [n] rounds of the loop of lines 34 to 43. *)
Definition times16_pass (g : globals) (tail : list Z) (n : N) : result locals :=
  N.iter n (loop_step (times16_cond g) times16_body) (Ok (times16_init tail)).

(** The whole loop of lines 34 to 43. *)
Definition times16_loop (g : globals) (tail : list Z) : result locals :=
  while (times16_cond g) times16_body (Z.to_N (DIGITS g)) (times16_init tail).

(** [j >= 0], the condition of the loop of line 46. *)
Definition print_cond (s : Z * stdout) : bool := bool_decide (0 ≤ s.1).

(** [times16(tail)], lines 30 to 51: the new array and the new standard
    output.  ['\n'] is 10. *)
Definition times16 (g : globals) (tail : list Z) (out : stdout)
  : result (list Z * stdout) :=
  s ← times16_loop g tail;
  if bool_decide (l_good s ≠ 0) then
    j ← int (DIGITS g - 1);
    '(_, out) ← while print_cond (print_body (l_tail s)) (Z.to_N (DIGITS g)) (j, out);
    Ok (l_tail s, putchar 10 out)
  else Ok (l_tail s, out).

(** ** [main] *)

(** The variables of one thread of the parallel region, and the characters
    the thread has written. *)
Record worker : Type := Worker {
  w_tail : list Z;
  w_steps : Z;
  w_out : stdout
}.

(** [int tail[DIGITS]; memset(tail, 0, sizeof(tail));] *)
Definition alloc_zeroed (n : Z) : result (list Z) :=
  if bool_decide (0 < n) then Ok (replicate (Z.to_nat n) 0)
  else Err BadArraySize.

(** Line 63 followed by the [i++] of line 62. *)
Definition seed_body (s : Z * list Z) : result (Z * list Z) :=
  let '(i, tail) := s in
  x ← load tail 0; x ← int (x * 2); tail ← store tail 0 x;
  i ← int (i + 1);
  Ok (i, tail).

(** Lines 58 to 65, in the thread whose [omp_get_thread_num()] is [tid]. *)
Definition worker_init (g : globals) (tid : Z) : result worker :=
  tail ← alloc_zeroed (DIGITS g);
  tail ← store tail 0 1;
  '(_, tail) ← while (λ s, bool_decide (s.1 < tid)) seed_body (Z.to_N tid) (0, tail);
  Ok {| w_tail := tail; w_steps := 0; w_out := [] |}.

(** Lines 70 and 71: one application of the multiplier and [steps++]. *)
Definition worker_step (g : globals) (w : worker) : result worker :=
  '(tail, out) ← times16 g (w_tail w) (w_out w);
  steps ← llong (w_steps w + 1);
  Ok {| w_tail := tail; w_steps := steps; w_out := out |}.

(** Lines 70 and 71 followed by the [i++] of line 68. *)
Definition batch_body (g : globals) (s : Z * worker) : result (Z * worker) :=
  let '(i, w) := s in
  w ← worker_step g w;
  i ← int (i + 1);
  Ok (i, w).

(** [i < BATCH], compared in [long long]. *)
Definition batch_cond (g : globals) (s : Z * worker) : bool :=
  bool_decide (s.1 < BATCH g).

Definition newline : ascii := ascii_of_N 10.

(** What [printf("Steps: %lld from %d\n", steps, tid)] writes: the text of
    the line, then the newline.  [pretty] prints an integer in decimal, with
    a minus sign when it is negative. *)
Definition progress_text (steps tid : Z) : list ascii :=
  list_ascii_of_string ("Steps: " +:+ pretty steps +:+ " from " +:+ pretty tid).

Definition progress_line (steps tid : Z) : stdout :=
  progress_text steps tid ++ [newline].

(** Lines 68 to 73: one round of [while (1)]. *)
Definition worker_round (g : globals) (tid : Z) (w : worker) : result worker :=
  '(_, w) ← while (batch_cond g) (batch_body g) (Z.to_N (BATCH g)) (0, w);
  Ok {| w_tail := w_tail w; w_steps := w_steps w;
        w_out := w_out w ++ progress_line (w_steps w) tid |}.

(** The thread [tid] after [rounds] rounds of its [while (1)]. *)
Definition worker_run (g : globals) (tid : Z) (rounds : N) : result worker :=
  N.iter rounds (λ r, w ← r; worker_round g tid w) (worker_init g tid).

(** What a run of [main] has come to: stopped by the assertion of line 55,
    or in the parallel region with one worker per thread. *)
Inductive outcome : Type :=
| Aborted (diagnostic : string)
| Running (workers : list (result worker)).

(** [main].  The OpenMP runtime enters the model through two numbers:
    [omp_max_threads] is what [omp_get_max_threads()] returns at line 55, an
    upper bound on the size of the team that a parallel region may get, and
    [team] is the number of threads of the team that the runtime forms at
    line 56, numbered 0 to [team - 1].  The source tests the first and never
    looks at the second.  [rounds tid] is how many rounds thread [tid] has
    completed. *)
Definition main (g : globals) (omp_max_threads team : Z) (rounds : Z → N)
  : outcome :=
  if bool_decide (omp_max_threads = 4) then
    Running ((λ tid, worker_run g tid (rounds tid)) <$> seqZ 0 team)
  else Aborted "main.c:55: main: Assertion `omp_get_max_threads() == 4' failed.".

(** ** Reading a digit array *)

(** The number a little-endian digit array stands for. *)
Fixpoint value (ds : list Z) : Z :=
  match ds with
  | [] => 0
  | d :: ds => d + 10 * value ds
  end.

Definition digit (d : Z) : Prop := 0 ≤ d ≤ 9.

(** A digit buffer of the program: [DIGITS] elements, each in [0,9]. *)
Definition valid (g : globals) (tail : list Z) : Prop :=
  Z.of_nat (length tail) = DIGITS g ∧ Forall digit tail.

(** The [n] lowest decimal digits of [v], lowest first. *)
Fixpoint to_digits (n : nat) (v : Z) : list Z :=
  match n with
  | O => []
  | S n => v `mod` 10 :: to_digits n (v `div` 10)
  end.

(** The logical AND of [digit % 2 == 0] over all positions. *)
Definition all_even (ds : list Z) : bool :=
  forallb (λ d, bool_decide (Z.rem d 2 = 0)) ds.

(** The digits and the carry that the pass of [times16] leaves when it
    enters [ds] with carry [c], in exact arithmetic. *)
Fixpoint mul16_from (c : Z) (ds : list Z) : list Z :=
  match ds with
  | [] => []
  | d :: ds => (d * 6 + c) `mod` 10 :: mul16_from (d + (d * 6 + c) `div` 10) ds
  end.

Fixpoint carry_from (c : Z) (ds : list Z) : Z :=
  match ds with
  | [] => c
  | d :: ds => carry_from (d + (d * 6 + c) `div` 10) ds
  end.

Definition mul16 (ds : list Z) : list Z := mul16_from 0 ds.

(** The ASCII character of a decimal digit. *)
Definition digit_char (d : Z) : ascii :=
  match d with
  | 0 => "0" | 1 => "1" | 2 => "2" | 3 => "3" | 4 => "4"
  | 5 => "5" | 6 => "6" | 7 => "7" | 8 => "8" | 9 => "9"
  | _ => "?"
  end%char.

Definition is_digit_char (a : ascii) : Prop :=
  a ∈ ["0"; "1"; "2"; "3"; "4"; "5"; "6"; "7"; "8"; "9"]%char.

(** A match line: the digits from index [DIGITS-1] down to index 0, then a
    newline. *)
Definition match_line (tail : list Z) : stdout :=
  (digit_char <$> reverse tail) ++ [newline].

(** What one application of the multiplier writes, given the array it
    leaves. *)
Definition emitted (tail : list Z) : stdout :=
  if all_even tail then match_line tail else [].

(** Array and output after one application, in exact arithmetic. *)
Definition apply16 (s : list Z * stdout) : list Z * stdout :=
  let tail := mul16 s.1 in (tail, s.2 ++ emitted tail).

(** What the loops rely on: [DIGITS] is a positive [int], so that the array
    of line 58 exists ... *)
Definition digits_ok (g : globals) : Prop := 0 < DIGITS g ≤ INT_MAX.

(** ... and [BATCH] is not negative and not above [INT_MAX], the largest
    value the [int] counter of line 68 can reach. *)
Definition batch_ok (g : globals) : Prop := 0 ≤ BATCH g ≤ INT_MAX.

Definition globals_ok (g : globals) : Prop := digits_ok g ∧ batch_ok g.

(** ** States the loops go through *)

(** The locals of [times16] after [n] rounds of its first loop, in exact
    arithmetic: the first [n] digits are multiplied, the others untouched. *)
Definition pass_state (tail : list Z) (n : N) : locals :=
  let done := take (N.to_nat n) tail in
  {| l_i := Z.of_N n;
     l_tail := mul16 done ++ drop (N.to_nat n) tail;
     l_carry := carry_from 0 done;
     l_good := if all_even (mul16 done) then 1 else 0 |}.

(** The index and the output after [n] rounds of the printing loop: the [n]
    highest digits are written, highest first. *)
Definition print_state (tail : list Z) (out : stdout) (n : N) : Z * stdout :=
  (Z.of_nat (length tail) - 1 - Z.of_N n,
   out ++ (digit_char <$> take (N.to_nat n) (reverse tail))).

(** ** The worker in exact arithmetic *)

(** The buffer of worker [tid] when it enters its [while (1)]. *)
Definition seed (g : globals) (tid : Z) : list Z :=
  2 ^ tid :: replicate (Z.to_nat (DIGITS g) - 1) 0.

(** The loop variable and the array after [n] rounds of the loop of
    line 62. *)
Definition seed_state (g : globals) (n : N) : Z * list Z :=
  (Z.of_N n, seed g (Z.of_N n)).

(** A worker [n] applications of the multiplier later. *)
Definition worker_after (w : worker) (n : N) : worker :=
  let s := N.iter n apply16 (w_tail w, w_out w) in
  {| w_tail := s.1; w_steps := w_steps w + Z.of_N n; w_out := s.2 |}.

(** The loop variable and the worker after [n] rounds of the loop of
    line 68. *)
Definition batch_state (w : worker) (n : N) : Z * worker :=
  (Z.of_N n, worker_after w n).

(** A worker one round of [while (1)] later. *)
Definition round_after (g : globals) (tid : Z) (w : worker) : worker :=
  let w' := worker_after w (Z.to_N (BATCH g)) in
  {| w_tail := w_tail w'; w_steps := w_steps w';
     w_out := w_out w' ++ progress_line (w_steps w') tid |}.

(** ** Applications of the multiplier, counted *)

(** [n] applications of [times16] in a row. *)
Definition times16_iter (g : globals) (n : N) (s : list Z * stdout)
  : result (list Z * stdout) :=
  N.iter n (λ r, '(tail, out) ← r; times16 g tail out) (Ok s).

(** The buffer of worker [tid] after [k] applications of the multiplier. *)
Definition worker_buffer (g : globals) (tid : Z) (k : N) : result (list Z) :=
  w ← worker_init g tid;
  '(tail, _) ← times16_iter g k (w_tail w, w_out w);
  Ok tail.

(** The worker [tid] after [k] rounds of [while (1)], in exact arithmetic. *)
Definition run_after (g : globals) (tid : Z) (k : N) : worker :=
  N.iter k (round_after g tid) {| w_tail := seed g tid; w_steps := 0; w_out := [] |}.

(** ** Lines of the output *)

(** The complete lines of an output, each without its newline; characters
    after the last newline belong to no line yet. *)
Fixpoint lines (out : stdout) : list (list ascii) :=
  match out with
  | [] => []
  | a :: out =>
      if bool_decide (a = newline) then [] :: lines out
      else match lines out with
           | [] => []
           | l :: ls => (a :: l) :: ls
           end
  end.

(** The output made of the given lines. *)
Definition unlines (ls : list (list ascii)) : stdout :=
  concat ((λ l, l ++ [newline]) <$> ls).

(** A progress line is a line that starts with [Steps: ]. *)
Definition is_progress (l : list ascii) : bool :=
  bool_decide (take 7 l = list_ascii_of_string "Steps: ").

Definition progress_lines (out : stdout) : list (list ascii) :=
  List.filter is_progress (lines out).

(** The first [k] progress reports of worker [tid]: the [j]-th shows
    [j * BATCH]. *)
Definition reports (g : globals) (tid : Z) (k : nat) : list (list ascii) :=
  (λ j, progress_text (Z.of_nat j * BATCH g) tid) <$> seq 1 k.

(** Worker [tid] completes its [k]-th round: its buffer is the one that
    [k * BATCH] applications of the multiplier leave, its counter shows that
    many, its output holds exactly [k] progress lines, the [j]-th showing
    [j * BATCH], and the [k]-th is the last line written. *)
Definition reports_every_batch (g : globals) (tid : Z) (k : N) : Prop :=
  ∃ w, worker_run g tid k = Ok w
     ∧ worker_buffer g tid (k * Z.to_N (BATCH g)) = Ok (w_tail w)
     ∧ w_steps w = Z.of_N k * BATCH g
     ∧ progress_lines (w_out w) = reports g tid (N.to_nat k)
     ∧ last (lines (w_out w)) = Some (progress_text (Z.of_N k * BATCH g) tid).

(** ** The single-worker reference *)

(** Following the specification: the state of a single worker that computes
    [2^n mod 10^DIGITS], written as a buffer of [DIGITS] digits. *)
Definition reference (g : globals) (n : N) : list Z :=
  to_digits (Z.to_nat (DIGITS g)) (2 ^ Z.of_N n `mod` 10 ^ DIGITS g).

(** The reference sequence for the exponents [0 .. 4*K-1], in order. *)
Definition reference_states (g : globals) (K : nat) : list (list Z) :=
  (λ n, reference g (N.of_nat n)) <$> seq 0 (4 * K).

(** The states of the four workers over [K] applications each, merged by
    exponent: exponent [n] is the state of worker [n mod 4] after [n / 4]
    applications. *)
Definition merged_states (g : globals) (K : nat) : list (result (list Z)) :=
  (λ n, worker_buffer g (Z.of_nat (Nat.modulo n 4)) (N.of_nat (Nat.div n 4)))
    <$> seq 0 (4 * K).

(** ** Observations on a run of [main] *)



(** ** The all-zero buffer *)

Definition zeros (g : globals) : list Z := replicate (Z.to_nat (DIGITS g)) 0.

Definition zero_line (g : globals) : stdout :=
  replicate (Z.to_nat (DIGITS g)) "0"%char ++ [newline].

(** ** Small globals to run the model on *)

Definition small_globals : globals := {| DIGITS := 4; BATCH := 3 |}.

(** ** Tactics for concrete globals and buffers *)

Ltac solve_digits_ok :=
  unfold digits_ok, INT_MAX; simpl; lia.

Ltac solve_globals_ok :=
  unfold globals_ok, digits_ok, batch_ok, INT_MAX; simpl; lia.

Ltac solve_valid :=
  split; [reflexivity | repeat constructor; unfold digit; lia].

(** ** Arrays that are not digit buffers *)

(** An element small enough for the pass of [times16]: with every element
    read in this range the carry stays below twice the bound, and
    [d * 6 + carry] below [INT_MAX]. *)
Definition bounded (d : Z) : Prop := 0 ≤ d ≤ 268435455.

(** ** Reading the output back *)

(** The number a line of decimal digit characters stands for, highest digit
    first. *)
Definition digit_of_char (a : ascii) : Z := Z.of_N (N_of_ascii a) - 48.

Definition read_decimal (l : list ascii) : Z :=
  fold_left (λ acc a, acc * 10 + digit_of_char a) l 0.

(** The lines of an output that are not progress lines. *)
Definition match_lines (out : stdout) : list (list ascii) :=
  List.filter (λ l, negb (is_progress l)) (lines out).

(** The text of the match line of a buffer. *)
Definition line_of (tail : list Z) : list ascii := digit_char <$> reverse tail.

(** The buffers that the first [n] applications of the multiplier leave,
    in exact arithmetic. *)
Definition visited (tail : list Z) (n : nat) : list (list Z) :=
  (λ j, N.iter (N.of_nat j) mul16 tail) <$> seq 1 n.

(** The match lines expected of worker [tid] over its first [n]
    applications: those of the all-even ones among the reference buffers for
    the exponents [tid + 4], [tid + 8], ..., [tid + 4 * n], in this order. *)
Definition expected_matches (g : globals) (tid : Z) (n : nat) : list (list ascii) :=
  line_of <$> List.filter all_even
    ((λ j, reference g (Z.to_N (tid + 4 * Z.of_nat j))) <$> seq 1 n).

(** ** Results: basic facts *)

Lemma int_ok z : INT_MIN ≤ z ≤ INT_MAX → int z = Ok z.
Proof. intros H. unfold int. by rewrite bool_decide_true. Qed.

Lemma llong_ok z : LLONG_MIN ≤ z ≤ LLONG_MAX → llong z = Ok z.
Proof. intros H. unfold llong. by rewrite bool_decide_true. Qed.

Lemma llong_overflow z : LLONG_MAX < z → llong z = Err Overflow.
Proof. intros H. unfold llong. rewrite bool_decide_false; [done | lia]. Qed.

Lemma load_middle (l1 l2 : list Z) x i :
  i = Z.of_nat (length l1) → load (l1 ++ x :: l2) i = Ok x.
Proof.
  intros ->. unfold load. rewrite bool_decide_true by lia.
  rewrite Nat2Z.id. by rewrite list_lookup_middle.
Qed.

Lemma store_middle (l1 l2 : list Z) x y i :
  i = Z.of_nat (length l1) → store (l1 ++ x :: l2) i y = Ok (l1 ++ y :: l2).
Proof.
  intros ->. unfold store.
  rewrite bool_decide_true by (rewrite length_app; simpl; lia).
  rewrite Nat2Z.id. f_equal.
  rewrite insert_app_r_alt by lia. by rewrite Nat.sub_diag.
Qed.

Lemma load_head (l : list Z) x : load (x :: l) 0 = Ok x.
Proof. apply (load_middle [] l x 0). done. Qed.

Lemma store_head (l : list Z) x y : store (x :: l) 0 y = Ok (y :: l).
Proof. apply (store_middle [] l x y 0). done. Qed.

(** ** Loops: trajectories *)

Section loop_facts.
Context {St : Type}.
Variable cond : St → bool.
Variable body : St → result St.

Lemma iter_loop_step_err n e :
  N.iter n (loop_step cond body) (Err e) = Err e.
Proof.
  induction n as [|n IH] using N.peano_ind; [done|].
  by rewrite N.iter_succ, IH.
Qed.

Lemma iter_loop_step_exit n s :
  cond s = false → N.iter n (loop_step cond body) (Ok s) = Ok s.
Proof.
  intros Hc. induction n as [|n IH] using N.peano_ind; [done|].
  rewrite N.iter_succ, IH. simpl. by rewrite Hc.
Qed.

(** If [f] lists the states that the first [count] rounds go through, the
    loop is at [f n] after [n] rounds. *)
Lemma iter_trajectory (f : N → St) (count n : N) :
  (∀ k, (k < count)%N → cond (f k) = true ∧ body (f k) = Ok (f (N.succ k))) →
  (n ≤ count)%N →
  N.iter n (loop_step cond body) (Ok (f 0%N)) = Ok (f n).
Proof.
  intros Hstep. induction n as [|n IH] using N.peano_ind; [done|].
  intros Hn. rewrite N.iter_succ, IH by lia.
  destruct (Hstep n) as [Hc Hb]; [lia|]. simpl. by rewrite Hc.
Qed.

(** ... and when the condition fails at [f count], the loop ends there,
    however much fuel is left. *)
Lemma while_trajectory (f : N → St) (count fuel : N) :
  (∀ k, (k < count)%N → cond (f k) = true ∧ body (f k) = Ok (f (N.succ k))) →
  cond (f count) = false →
  (count ≤ fuel)%N →
  while cond body fuel (f 0%N) = Ok (f count).
Proof.
  intros Hstep Hexit Hfuel. unfold while.
  replace fuel with ((fuel - count) + count)%N by lia.
  rewrite N.iter_add, (iter_trajectory f count count) by (done || lia).
  rewrite iter_loop_step_exit by done. simpl. by rewrite Hexit.
Qed.
End loop_facts.

(** ** Digit arithmetic *)

Lemma value_app (l1 l2 : list Z) :
  value (l1 ++ l2) = value l1 + 10 ^ Z.of_nat (length l1) * value l2.
Proof.
  induction l1 as [|d l1 IH]; simpl length; simpl app; simpl value; [lia|].
  rewrite IH, Nat2Z.inj_succ, Z.pow_succ_r by lia. lia.
Qed.

Lemma value_bounds (ds : list Z) :
  Forall digit ds → 0 ≤ value ds < 10 ^ Z.of_nat (length ds).
Proof.
  induction 1 as [|d ds Hd _ IH]; simpl length; simpl value; [lia|].
  rewrite Nat2Z.inj_succ, Z.pow_succ_r by lia. unfold digit in Hd. lia.
Qed.

Lemma value_replicate_0 n : value (replicate n 0) = 0.
Proof. induction n as [|n IH]; simpl; lia. Qed.

Lemma Forall_digit_replicate_0 n : Forall digit (replicate n 0).
Proof. apply Forall_replicate. unfold digit. lia. Qed.

Lemma length_to_digits n v : length (to_digits n v) = n.
Proof. revert v. induction n as [|n IH]; intros v; simpl; [done|]. by rewrite IH. Qed.

Lemma Forall_digit_to_digits n v : Forall digit (to_digits n v).
Proof.
  revert v. induction n as [|n IH]; intros v; simpl; constructor; [|done].
  unfold digit. pose proof (Z.mod_pos_bound v 10). lia.
Qed.

Lemma value_to_digits n v : value (to_digits n v) = v `mod` 10 ^ Z.of_nat n.
Proof.
  revert v. induction n as [|n IH]; intros v.
  - simpl. by rewrite Z.mod_1_r.
  - cbn [to_digits value]. rewrite IH, Nat2Z.inj_succ, Z.pow_succ_r by lia.
    rewrite Z.rem_mul_r by lia. lia.
Qed.

(** Decoding a buffer and encoding the number again gives the buffer back. *)
Lemma to_digits_value (ds : list Z) :
  Forall digit ds → to_digits (length ds) (value ds) = ds.
Proof.
  induction 1 as [|d ds Hd _ IH]; [done|]. unfold digit in Hd.
  cbn [length to_digits value].
  replace ((d + 10 * value ds) `mod` 10) with d
    by (Z.div_mod_to_equations; lia).
  replace ((d + 10 * value ds) `div` 10) with (value ds)
    by (Z.div_mod_to_equations; lia).
  by rewrite IH.
Qed.

(** Two buffers of the same length that stand for the same number are the
    same buffer. *)
Lemma value_inj (l1 l2 : list Z) :
  Forall digit l1 → Forall digit l2 → length l1 = length l2 →
  value l1 = value l2 → l1 = l2.
Proof.
  intros H1 H2 Hl Hv.
  rewrite <- (to_digits_value l1), <- (to_digits_value l2) by done.
  by rewrite Hl, Hv.
Qed.

Lemma length_mul16_from c ds : length (mul16_from c ds) = length ds.
Proof. revert c. induction ds as [|d ds IH]; intros c; simpl; [done|]. by rewrite IH. Qed.

Lemma Forall_digit_mul16_from c ds : Forall digit (mul16_from c ds).
Proof.
  revert c. induction ds as [|d ds IH]; intros c; simpl; constructor; [|done].
  unfold digit. pose proof (Z.mod_pos_bound (d * 6 + c) 10). lia.
Qed.

Lemma mul16_from_app c l1 l2 :
  mul16_from c (l1 ++ l2) = mul16_from c l1 ++ mul16_from (carry_from c l1) l2.
Proof. revert c. induction l1 as [|d l1 IH]; intros c; simpl; [done|]. by rewrite IH. Qed.

Lemma carry_from_app c l1 l2 :
  carry_from c (l1 ++ l2) = carry_from (carry_from c l1) l2.
Proof. revert c. induction l1 as [|d l1 IH]; intros c; simpl; [done|]. by rewrite IH. Qed.

(** The carry of one digit: at most 15 when it enters, at most 15 when it
    leaves. *)
Lemma carry_step_bounds d c :
  digit d → 0 ≤ c ≤ 15 → 0 ≤ d + (d * 6 + c) `div` 10 ≤ 15.
Proof.
  unfold digit. intros Hd Hc.
  assert (0 ≤ (d * 6 + c) `div` 10 ≤ 6); [|lia].
  split; [apply Z.div_pos; lia|].
  apply Z.lt_succ_r, Z.div_lt_upper_bound; lia.
Qed.

Lemma carry_from_bounds c ds :
  Forall digit ds → 0 ≤ c ≤ 15 → 0 ≤ carry_from c ds ≤ 15.
Proof.
  intros Hds. revert c. induction Hds as [|d ds Hd _ IH]; intros c Hc; simpl; [done|].
  by apply IH, carry_step_bounds.
Qed.

(** The pass multiplies by 16: what leaves the array at the top is the
    carry. *)
Lemma value_mul16_from c ds :
  value (mul16_from c ds) + 10 ^ Z.of_nat (length ds) * carry_from c ds
  = 16 * value ds + c.
Proof.
  revert c. induction ds as [|d ds IH]; intros c.
  - simpl. lia.
  - cbn [mul16_from carry_from value length].
    rewrite Nat2Z.inj_succ, Z.pow_succ_r by lia.
    specialize (IH (d + (d * 6 + c) `div` 10)).
    pose proof (Z.div_mod (d * 6 + c) 10). lia.
Qed.

Lemma value_mul16 ds :
  Forall digit ds →
  value (mul16 ds) = (value ds * 16) `mod` 10 ^ Z.of_nat (length ds).
Proof.
  intros Hds. unfold mul16.
  pose proof (value_mul16_from 0 ds) as Hv.
  pose proof (value_bounds (mul16_from 0 ds) (Forall_digit_mul16_from 0 ds)) as Hb.
  rewrite length_mul16_from in Hb.
  replace (value ds * 16) with
    (value (mul16_from 0 ds) + carry_from 0 ds * 10 ^ Z.of_nat (length ds)) by lia.
  rewrite Z.mod_add by lia. by rewrite Z.mod_small.
Qed.

(** ** The first loop of [times16] *)

Lemma all_even_snoc ds d :
  all_even (ds ++ [d]) = all_even ds && bool_decide (Z.rem d 2 = 0).
Proof. unfold all_even. rewrite forallb_app. simpl. by rewrite andb_true_r. Qed.

Lemma land_flags (a b : bool) :
  Z.land (if a then 1 else 0) (if b then 1 else 0) = if a && b then 1 else 0.
Proof. by destruct a, b. Qed.

(** One round on a digit [d] with carry [c]. *)
Lemma times16_body_digit (l1 l2 : list Z) d c gd i :
  i = Z.of_nat (length l1) → i + 1 ≤ INT_MAX →
  digit d → 0 ≤ c ≤ 15 →
  times16_body {| l_i := i; l_tail := l1 ++ d :: l2; l_carry := c; l_good := gd |}
  = Ok {| l_i := i + 1;
          l_tail := l1 ++ (d * 6 + c) `mod` 10 :: l2;
          l_carry := d + (d * 6 + c) `div` 10;
          l_good := Z.land gd
            (if bool_decide (Z.rem ((d * 6 + c) `mod` 10) 2 = 0) then 1 else 0) |}.
Proof.
  intros Hi Hmax Hd Hc. unfold digit in Hd.
  pose proof (carry_step_bounds d c Hd Hc) as Hnext.
  unfold INT_MAX in Hmax.
  unfold times16_body. cbn [l_i l_tail l_carry l_good].
  repeat (first [ rewrite load_middle by done
                | rewrite store_middle by done
                | rewrite Z.quot_div_nonneg by lia
                | rewrite Z.rem_mod_nonneg by lia
                | rewrite int_ok by (unfold INT_MIN, INT_MAX; lia) ];
          cbn [mbind result_bind]).
  done.
Qed.


Lemma valid_lookup g (tail : list Z) (k : N) :
  valid g tail → Z.of_N k < DIGITS g →
  ∃ d, tail !! N.to_nat k = Some d ∧ digit d.
Proof.
  intros [Hlen Hds] Hk.
  destruct (lookup_lt_is_Some_2 tail (N.to_nat k)) as [d Hd]; [lia|].
  exists d. split; [done|]. by eapply Forall_lookup_1.
Qed.

Lemma pass_state_0 (tail : list Z) : pass_state tail 0 = times16_init tail.
Proof. done. Qed.

(** The rounds of the first loop follow [pass_state]. *)
Lemma times16_body_pass_state g (tail : list Z) (k : N) :
  digits_ok g → valid g tail → Z.of_N k < DIGITS g →
  times16_body (pass_state tail k) = Ok (pass_state tail (N.succ k)).
Proof.
  intros [_ Hmax] Hv Hk.
  destruct (valid_lookup g tail k Hv Hk) as (d & Hd & Hdig).
  destruct Hv as [Hlen Hds].
  unfold pass_state. rewrite N2Nat.inj_succ, N2Z.inj_succ.
  rewrite (take_S_r _ _ d), (drop_S _ d (N.to_nat k)) by done.
  unfold mul16. rewrite mul16_from_app, carry_from_app. cbn [mul16_from carry_from].
  rewrite all_even_snoc, <- land_flags, <- (assoc_L (++)). cbn [app].
  apply times16_body_digit; [| lia | done |].
  - rewrite length_mul16_from, length_take. lia.
  - apply carry_from_bounds; [by apply Forall_take | lia].
Qed.

Lemma times16_pass_spec g (tail : list Z) (n : N) :
  digits_ok g → valid g tail → Z.of_N n ≤ DIGITS g →
  times16_pass g tail n = Ok (pass_state tail n).
Proof.
  intros Hg Hv Hn. unfold times16_pass. rewrite <- pass_state_0.
  apply (iter_trajectory _ _ (pass_state tail) (Z.to_N (DIGITS g))); [|lia].
  intros k Hk. split.
  - unfold times16_cond. apply bool_decide_eq_true. simpl. lia.
  - apply (times16_body_pass_state g); [done..|lia].
Qed.

Lemma pass_state_all (tail : list Z) (n : N) :
  length tail = N.to_nat n →
  pass_state tail n
  = {| l_i := Z.of_N n; l_tail := mul16 tail; l_carry := carry_from 0 tail;
       l_good := if all_even (mul16 tail) then 1 else 0 |}.
Proof.
  intros Hn. unfold pass_state.
  rewrite <- Hn, firstn_all, drop_all. by rewrite (right_id_L [] (++)).
Qed.

(** The first loop ends, without error, with the array multiplied by 16 and
    [good] set when all its digits are even. *)
Lemma times16_loop_spec g (tail : list Z) :
  digits_ok g → valid g tail →
  times16_loop g tail
  = Ok {| l_i := DIGITS g; l_tail := mul16 tail; l_carry := carry_from 0 tail;
          l_good := if all_even (mul16 tail) then 1 else 0 |}.
Proof.
  intros Hg Hv. unfold times16_loop. rewrite <- pass_state_0.
  rewrite (while_trajectory _ _ (pass_state tail) (Z.to_N (DIGITS g))).
  - destruct Hv as [Hlen _], Hg as [? ?].
    rewrite pass_state_all by lia. by rewrite Z2N.id by lia.
  - intros k Hk. split.
    + unfold times16_cond. apply bool_decide_eq_true. simpl. lia.
    + apply (times16_body_pass_state g); [done..|lia].
  - unfold times16_cond. apply bool_decide_eq_false. simpl.
    destruct Hg as [? ?]. lia.
  - lia.
Qed.

(** ** The printing loop of [times16] *)

Lemma putchar_digit d out : digit d → putchar (d + 48) out = out ++ [digit_char d].
Proof.
  unfold digit. intros Hd. unfold putchar. f_equal. f_equal.
  assert (d = 0 ∨ d = 1 ∨ d = 2 ∨ d = 3 ∨ d = 4 ∨ d = 5 ∨ d = 6 ∨ d = 7
          ∨ d = 8 ∨ d = 9) as Hcases by lia.
  repeat destruct Hcases as [-> | Hcases]; try subst d; done.
Qed.

Lemma putchar_newline out : putchar 10 out = out ++ [newline].
Proof. done. Qed.

Lemma is_digit_char_digit d : digit d → is_digit_char (digit_char d).
Proof.
  unfold digit. intros Hd.
  assert (d = 0 ∨ d = 1 ∨ d = 2 ∨ d = 3 ∨ d = 4 ∨ d = 5 ∨ d = 6 ∨ d = 7
          ∨ d = 8 ∨ d = 9) as Hcases by lia.
  unfold is_digit_char.
  repeat destruct Hcases as [-> | Hcases]; try subst d; simpl;
    repeat first [ apply list_elem_of_here | apply list_elem_of_further ].
Qed.

Lemma print_body_print_state g (tail : list Z) out (k : N) :
  digits_ok g → valid g tail → Z.of_N k < DIGITS g →
  print_body tail (print_state tail out k) = Ok (print_state tail out (N.succ k)).
Proof.
  intros [_ Hmax] [Hlen Hds] Hk. unfold INT_MAX in Hmax.
  destruct (lookup_lt_is_Some_2 (reverse tail) (N.to_nat k)) as [d Hd];
    [rewrite length_reverse; lia|].
  assert (digit d) as Hdig.
  { eapply Forall_lookup_1; [|exact Hd]. by apply Forall_reverse. }
  unfold print_state, print_body.
  rewrite N2Nat.inj_succ, (take_S_r _ _ d), fmap_app by done.
  rewrite reverse_lookup in Hd by lia.
  unfold load. rewrite bool_decide_true by lia.
  replace (Z.to_nat (Z.of_nat (length tail) - 1 - Z.of_N k))
    with (length tail - S (N.to_nat k))%nat by lia.
  rewrite Hd. cbn [mbind result_bind]. unfold digit in Hdig.
  rewrite !int_ok by (unfold INT_MIN, INT_MAX; lia). cbn [mbind result_bind].
  rewrite putchar_digit by done. rewrite <- (assoc_L (++)).
  do 2 f_equal. lia.
Qed.

(** The printing loop ends, without error, with all digits written from
    index [DIGITS-1] down to index 0. *)
Lemma print_loop_spec g (tail : list Z) out :
  digits_ok g → valid g tail →
  while print_cond (print_body tail) (Z.to_N (DIGITS g)) (DIGITS g - 1, out)
  = Ok (-1, out ++ (digit_char <$> reverse tail)).
Proof.
  intros Hg Hv. pose proof Hv as [Hlen _]. pose proof Hg as [? ?].
  replace (DIGITS g - 1, out) with (print_state tail out 0)
    by (unfold print_state; simpl; rewrite (right_id_L [] (++)); f_equal; lia).
  rewrite (while_trajectory _ _ (print_state tail out) (Z.to_N (DIGITS g))).
  - unfold print_state. rewrite take_ge by (rewrite length_reverse; lia).
    do 2 f_equal. lia.
  - intros k Hk. split.
    + unfold print_cond, print_state. apply bool_decide_eq_true. simpl. lia.
    + apply (print_body_print_state g); [done..|lia].
  - unfold print_cond, print_state. apply bool_decide_eq_false. simpl. lia.
  - lia.
Qed.

(** ** One application of the multiplier *)

Lemma valid_mul16 g (tail : list Z) : valid g tail → valid g (mul16 tail).
Proof.
  intros [Hlen _]. split.
  - unfold mul16. by rewrite length_mul16_from.
  - apply Forall_digit_mul16_from.
Qed.

(** [times16] never fails on a digit buffer: it leaves the buffer multiplied
    by 16 and writes the match line of the new buffer when that is all
    even. *)
Lemma times16_spec g (tail : list Z) out :
  digits_ok g → valid g tail →
  times16 g tail out = Ok (apply16 (tail, out)).
Proof.
  intros Hg Hv. unfold times16, apply16, emitted.
  rewrite times16_loop_spec by done. cbn [mbind result_bind l_good l_tail fst snd].
  destruct (all_even (mul16 tail)).
  - rewrite bool_decide_true by done.
    rewrite int_ok by (destruct Hg as [? ?]; unfold INT_MIN, INT_MAX in *; lia).
    cbn [mbind result_bind].
    rewrite (print_loop_spec g) by (done || by apply valid_mul16).
    cbn [mbind result_bind]. rewrite putchar_newline.
    unfold match_line. by rewrite (assoc_L (++)).
  - rewrite bool_decide_false by (intros ?; done). by rewrite (right_id_L [] (++)).
Qed.

(** ** Initialisation of a worker *)

Lemma seed_state_0 g :
  0 < DIGITS g → seed_state g 0 = (0, <[0%nat := 1]> (replicate (Z.to_nat (DIGITS g)) 0)).
Proof.
  intros Hd. unfold seed_state, seed. f_equal.
  destruct (Z.to_nat (DIGITS g)) as [|m] eqn:Hm; [lia|].
  simpl. by rewrite Nat.sub_0_r.
Qed.

Lemma seed_body_seed_state g (k : N) :
  Z.of_N k < 30 → seed_body (seed_state g k) = Ok (seed_state g (N.succ k)).
Proof.
  intros Hk. unfold seed_state, seed, seed_body.
  assert (0 < 2 ^ Z.of_N k ≤ 2 ^ 29) as Hpow.
  { split; [apply Z.pow_pos_nonneg; lia | apply Z.pow_le_mono_r; lia]. }
  rewrite load_head. cbn [mbind result_bind].
  rewrite (int_ok (_ * 2)) by (unfold INT_MIN, INT_MAX; lia). cbn [mbind result_bind].
  rewrite store_head. cbn [mbind result_bind].
  rewrite int_ok by (unfold INT_MIN, INT_MAX; lia). cbn [mbind result_bind app].
  rewrite N2Z.inj_succ, Z.pow_succ_r by lia.
  do 3 f_equal. lia.
Qed.

(** Initialisation succeeds for every thread number up to 30 and leaves
    [2^tid] at index 0, zero elsewhere. *)
Lemma worker_init_spec g tid :
  digits_ok g → 0 ≤ tid ≤ 30 →
  worker_init g tid = Ok {| w_tail := seed g tid; w_steps := 0; w_out := [] |}.
Proof.
  intros [Hd _] Htid. unfold worker_init, alloc_zeroed.
  rewrite bool_decide_true by done. cbn [mbind result_bind].
  unfold store. rewrite bool_decide_true by (rewrite length_replicate; lia).
  cbn [mbind result_bind]. change (Z.to_nat 0) with 0%nat.
  rewrite <- (seed_state_0 g) by done.
  rewrite (while_trajectory _ _ (seed_state g) (Z.to_N tid)).
  - cbn [mbind result_bind]. unfold seed_state. by rewrite Z2N.id by lia.
  - intros k Hk. split.
    + apply bool_decide_eq_true. simpl. lia.
    + apply seed_body_seed_state. lia.
  - apply bool_decide_eq_false. simpl. lia.
  - lia.
Qed.

Lemma valid_seed g tid : digits_ok g → 0 ≤ tid ≤ 3 → valid g (seed g tid).
Proof.
  intros [Hd _] Htid. unfold seed. split.
  - simpl. rewrite length_replicate. lia.
  - constructor; [|apply Forall_digit_replicate_0].
    unfold digit.
    assert (tid = 0 ∨ tid = 1 ∨ tid = 2 ∨ tid = 3) as [-> | [-> | [-> | ->]]] by lia;
      simpl; lia.
Qed.

Lemma value_seed g tid : value (seed g tid) = 2 ^ tid.
Proof. unfold seed. cbn [value]. rewrite value_replicate_0. lia. Qed.

(** ** Repeated applications *)

Lemma fst_iter_apply16 (n : N) (s : list Z * stdout) :
  (N.iter n apply16 s).1 = N.iter n mul16 s.1.
Proof.
  induction n as [|n IH] using N.peano_ind; [done|].
  rewrite !N.iter_succ. unfold apply16 at 1. simpl. by rewrite IH.
Qed.

Lemma valid_iter_mul16 g (n : N) (tail : list Z) :
  valid g tail → valid g (N.iter n mul16 tail).
Proof.
  intros Hv. induction n as [|n IH] using N.peano_ind; [done|].
  rewrite N.iter_succ. by apply valid_mul16.
Qed.

Lemma valid_iter_apply16 g (n : N) (s : list Z * stdout) :
  valid g s.1 → valid g (N.iter n apply16 s).1.
Proof. intros Hv. rewrite fst_iter_apply16. by apply valid_iter_mul16. Qed.

Lemma times16_iter_spec g (n : N) (s : list Z * stdout) :
  digits_ok g → valid g s.1 →
  times16_iter g n s = Ok (N.iter n apply16 s).
Proof.
  intros Hg Hv. unfold times16_iter.
  induction n as [|n IH] using N.peano_ind; [done|].
  rewrite !N.iter_succ, IH. cbn [mbind result_bind].
  pose proof (valid_iter_apply16 g n s Hv) as Hv'.
  destruct (N.iter n apply16 s) as [tail out]. by apply times16_spec.
Qed.

Lemma value_iter_mul16 (n : N) (tail : list Z) :
  Forall digit tail →
  length (N.iter n mul16 tail) = length tail ∧
  Forall digit (N.iter n mul16 tail) ∧
  value (N.iter n mul16 tail)
  = (value tail * 16 ^ Z.of_N n) `mod` 10 ^ Z.of_nat (length tail).
Proof.
  intros Hds. induction n as [|n (Hlen & Hdig & Hval)] using N.peano_ind.
  - split; [done|]. split; [done|]. simpl.
    rewrite Z.mul_1_r, Z.mod_small; [done|]. by apply value_bounds.
  - rewrite N.iter_succ. split; [|split].
    + unfold mul16. by rewrite length_mul16_from.
    + apply Forall_digit_mul16_from.
    + rewrite value_mul16, Hval, Hlen by done.
      rewrite Z.mul_mod_idemp_l by (apply Z.pow_nonzero; lia).
      rewrite N2Z.inj_succ, Z.pow_succ_r by lia. f_equal. lia.
Qed.

(** ** The rounds of a worker *)

Lemma worker_step_spec g (w : worker) :
  globals_ok g → valid g (w_tail w) →
  LLONG_MIN ≤ w_steps w + 1 ≤ LLONG_MAX →
  worker_step g w = Ok (worker_after w 1).
Proof.
  intros Hg Hv Hsteps. pose proof Hg as [Hdg _]. unfold worker_step.
  rewrite times16_spec by done. cbn [mbind result_bind].
  by rewrite llong_ok by done.
Qed.

Lemma worker_step_overflow g (w : worker) :
  globals_ok g → valid g (w_tail w) → w_steps w = LLONG_MAX →
  worker_step g w = Err Overflow.
Proof.
  intros Hg Hv Hsteps. pose proof Hg as [Hdg _]. unfold worker_step.
  rewrite times16_spec by done. cbn [mbind result_bind].
  by rewrite llong_overflow by lia.
Qed.

Lemma worker_after_succ (w : worker) (n : N) :
  worker_after w (N.succ n) = worker_after (worker_after w n) 1.
Proof.
  unfold worker_after. cbn [w_tail w_out w_steps].
  rewrite N.iter_succ, N2Z.inj_succ.
  destruct (N.iter n apply16 (w_tail w, w_out w)) as [tail out]. simpl.
  f_equal. lia.
Qed.

Lemma valid_worker_after g (w : worker) (n : N) :
  valid g (w_tail w) → valid g (w_tail (worker_after w n)).
Proof. intros Hv. unfold worker_after. simpl. by apply valid_iter_apply16. Qed.

Lemma batch_body_batch_state g (w : worker) (k : N) :
  globals_ok g → valid g (w_tail w) →
  Z.of_N k < BATCH g →
  0 ≤ w_steps w → w_steps w + Z.of_N k < LLONG_MAX →
  batch_body g (batch_state w k) = Ok (batch_state w (N.succ k)).
Proof.
  intros Hg Hv Hk H0 Hmax. pose proof Hg as [Hdg [_ Hb]].
  unfold batch_state, batch_body.
  rewrite worker_step_spec; [|done|by apply valid_worker_after|].
  - cbn [mbind result_bind].
    rewrite int_ok by (unfold INT_MIN, INT_MAX in *; lia). cbn [mbind result_bind].
    rewrite worker_after_succ, N2Z.inj_succ. done.
  - unfold worker_after, LLONG_MIN. simpl. lia.
Qed.

(** The batch loop applies the multiplier [BATCH] times and counts them. *)
Lemma batch_loop_spec g (w : worker) :
  globals_ok g → valid g (w_tail w) →
  0 ≤ w_steps w → w_steps w + BATCH g ≤ LLONG_MAX →
  while (batch_cond g) (batch_body g) (Z.to_N (BATCH g)) (0, w)
  = Ok (BATCH g, worker_after w (Z.to_N (BATCH g))).
Proof.
  intros Hg Hv H0 Hmax. pose proof Hg as [Hdg [Hb0 Hb]].
  replace (0, w) with (batch_state w 0) by (unfold batch_state, worker_after;
    destruct w; simpl; do 2 f_equal; lia).
  rewrite (while_trajectory _ _ (batch_state w) (Z.to_N (BATCH g))).
  - unfold batch_state. by rewrite Z2N.id by lia.
  - intros k Hk. split.
    + apply bool_decide_eq_true. simpl. lia.
    + apply batch_body_batch_state; (done || lia).
  - apply bool_decide_eq_false. simpl. lia.
  - lia.
Qed.

Lemma worker_round_spec g tid (w : worker) :
  globals_ok g → valid g (w_tail w) →
  0 ≤ w_steps w → w_steps w + BATCH g ≤ LLONG_MAX →
  worker_round g tid w = Ok (round_after g tid w).
Proof.
  intros Hg Hv H0 Hmax. pose proof Hg as [Hdg _]. unfold worker_round.
  by rewrite batch_loop_spec by done.
Qed.

(** ** Runs of a worker *)

Lemma run_after_succ g tid (k : N) :
  run_after g tid (N.succ k) = round_after g tid (run_after g tid k).
Proof. unfold run_after. by rewrite N.iter_succ. Qed.

Lemma w_steps_run_after g tid (k : N) :
  0 ≤ BATCH g → w_steps (run_after g tid k) = Z.of_N k * BATCH g.
Proof.
  intros Hb. induction k as [|k IH] using N.peano_ind; [done|].
  rewrite run_after_succ. unfold round_after, worker_after. cbn [w_steps].
  rewrite IH, N2Z.inj_succ, Z2N.id by done. lia.
Qed.

Lemma valid_run_after g tid (k : N) :
  globals_ok g → 0 ≤ tid ≤ 3 → valid g (w_tail (run_after g tid k)).
Proof.
  intros Hg Htid. pose proof Hg as [Hdg _]. induction k as [|k IH] using N.peano_ind.
  - by apply valid_seed.
  - rewrite run_after_succ. unfold round_after. cbn [w_tail].
    by apply valid_worker_after.
Qed.

Lemma w_tail_run_after g tid (k : N) :
  w_tail (run_after g tid k) = N.iter (k * Z.to_N (BATCH g)) mul16 (seed g tid).
Proof.
  induction k as [|k IH] using N.peano_ind; [done|].
  rewrite run_after_succ. unfold round_after, worker_after. cbn [w_tail].
  rewrite fst_iter_apply16. cbn [fst]. rewrite IH, <- N.iter_add.
  f_equal. lia.
Qed.

Lemma worker_run_succ g tid (k : N) :
  worker_run g tid (N.succ k) = (w ← worker_run g tid k; worker_round g tid w).
Proof. unfold worker_run. by rewrite N.iter_succ. Qed.

(** As long as the counter fits [long long], the rounds of a worker run
    without error and follow [run_after]. *)
Lemma worker_run_spec g tid (k : N) :
  globals_ok g → 0 ≤ tid ≤ 3 → Z.of_N k * BATCH g ≤ LLONG_MAX →
  worker_run g tid k = Ok (run_after g tid k).
Proof.
  intros Hg Htid. pose proof Hg as [Hdg [Hb0 Hb]].
  induction k as [|k IH] using N.peano_ind; intros Hmax.
  - unfold worker_run, run_after. simpl. apply worker_init_spec; [done|lia].
  - rewrite worker_run_succ, IH by lia. cbn [mbind result_bind].
    rewrite run_after_succ. apply worker_round_spec; [done|by apply valid_run_after|..];
      rewrite w_steps_run_after by done; lia.
Qed.

(** A round in which the counter would pass [LLONG_MAX] does not complete. *)
Lemma worker_round_overflow g tid (w : worker) :
  globals_ok g → valid g (w_tail w) →
  0 ≤ w_steps w ≤ LLONG_MAX → LLONG_MAX < w_steps w + BATCH g →
  worker_round g tid w = Err Overflow.
Proof.
  intros Hg Hv H0 Hmax. pose proof Hg as [Hdg [Hb0 Hb]].
  set (j := Z.to_N (LLONG_MAX - w_steps w)).
  assert (N.iter (N.succ j) (loop_step (batch_cond g) (batch_body g)) (Ok (0, w))
          = Err Overflow) as Hj.
  { rewrite N.iter_succ.
    replace (0, w) with (batch_state w 0) by (unfold batch_state, worker_after;
      destruct w; simpl; do 2 f_equal; lia).
    rewrite (iter_trajectory _ _ (batch_state w) j j); [| |lia].
    - unfold loop_step. cbn [mbind result_bind].
      unfold batch_cond. rewrite bool_decide_true by (simpl; lia).
      unfold batch_state, batch_body.
      rewrite worker_step_overflow; [done..|by apply valid_worker_after|].
      unfold worker_after. simpl. lia.
    - intros k Hk. split.
      + apply bool_decide_eq_true. simpl. lia.
      + apply batch_body_batch_state; (done || lia). }
  unfold worker_round, while.
  replace (Z.to_N (BATCH g)) with ((Z.to_N (BATCH g) - N.succ j) + N.succ j)%N by lia.
  rewrite N.iter_add, Hj, iter_loop_step_err. done.
Qed.

Lemma worker_run_overflow g tid (k : N) :
  globals_ok g → 0 ≤ tid ≤ 3 →
  Z.of_N k * BATCH g ≤ LLONG_MAX → LLONG_MAX < (Z.of_N k + 1) * BATCH g →
  worker_run g tid (N.succ k) = Err Overflow.
Proof.
  intros Hg Htid Hk Hover. pose proof Hg as [Hdg [Hb0 Hb]].
  rewrite worker_run_succ, worker_run_spec by done. cbn [mbind result_bind].
  apply worker_round_overflow; [done|by apply valid_run_after|..];
    rewrite w_steps_run_after by done; lia.
Qed.

(** ** Lines *)

Lemma lines_line (l : list ascii) (rest : stdout) :
  Forall (λ a, a ≠ newline) l → lines (l ++ newline :: rest) = l :: lines rest.
Proof.
  induction 1 as [|a l Ha _ IH]; cbn [app lines].
  - by rewrite bool_decide_true.
  - by rewrite bool_decide_false, IH.
Qed.

Lemma unlines_app (ls1 ls2 : list (list ascii)) :
  unlines (ls1 ++ ls2) = unlines ls1 ++ unlines ls2.
Proof. unfold unlines. by rewrite fmap_app, concat_app. Qed.

Lemma unlines_singleton (l : list ascii) : unlines [l] = l ++ [newline].
Proof. unfold unlines. simpl. by rewrite (right_id_L [] (++)). Qed.

Lemma lines_unlines (ls : list (list ascii)) (rest : stdout) :
  Forall (Forall (λ a, a ≠ newline)) ls →
  lines (unlines ls ++ rest) = ls ++ lines rest.
Proof.
  induction 1 as [|l ls Hl _ IH]; [done|].
  unfold unlines in *. cbn [fmap list_fmap concat].
  rewrite <- !(assoc_L (++)). cbn [app]. by rewrite lines_line, IH.
Qed.

Lemma not_digit_char_newline a : is_digit_char a → a ≠ newline.
Proof.
  unfold is_digit_char. intros H ->.
  repeat (apply elem_of_cons in H as [H|H]; [discriminate|]).
  by apply elem_of_nil in H.
Qed.

Lemma is_progress_digits (l : list ascii) :
  Forall is_digit_char l → is_progress l = false.
Proof.
  intros Hl. apply bool_decide_eq_false. destruct Hl as [|a l Ha _]; [done|].
  simpl. intros [= -> _]. unfold is_digit_char in Ha.
  repeat (apply elem_of_cons in Ha as [Ha|Ha]; [discriminate|]).
  by apply elem_of_nil in Ha.
Qed.

Lemma filter_is_progress_digits (ls : list (list ascii)) :
  Forall (Forall is_digit_char) ls → List.filter is_progress ls = [].
Proof.
  induction 1 as [|l ls Hl _ IH]; [done|].
  simpl. by rewrite is_progress_digits.
Qed.

(** ** Decimal printing *)

Lemma list_ascii_of_string_app (s1 s2 : string) :
  list_ascii_of_string (s1 +:+ s2)
  = list_ascii_of_string s1 ++ list_ascii_of_string s2.
Proof. induction s1 as [|a s1 IH]; [done|]. simpl. by rewrite IH. Qed.

Lemma pretty_N_char_not_newline (x : N) : pretty_N_char x ≠ newline.
Proof. unfold pretty_N_char. by repeat case_match. Qed.

Lemma pretty_N_go_not_newline (x : N) (s : string) :
  Forall (λ a, a ≠ newline) (list_ascii_of_string s) →
  Forall (λ a, a ≠ newline) (list_ascii_of_string (pretty_N_go x s)).
Proof.
  revert s. induction (N.lt_wf_0 x) as [x _ IH]; intros s Hs.
  assert (x = 0 ∨ 0 < x)%N as [->|Hx] by lia.
  - by rewrite pretty_N_go_0.
  - rewrite pretty_N_go_step by done. apply IH.
    + by apply N.div_lt.
    + simpl. constructor; [apply pretty_N_char_not_newline | done].
Qed.

Lemma pretty_N_not_newline (x : N) :
  Forall (λ a, a ≠ newline) (list_ascii_of_string (pretty x)).
Proof.
  unfold pretty, pretty_N. case_decide.
  - by repeat constructor.
  - apply pretty_N_go_not_newline. constructor.
Qed.

Lemma pretty_Z_not_newline (z : Z) :
  Forall (λ a, a ≠ newline) (list_ascii_of_string (pretty z)).
Proof.
  destruct z as [|p|p]; unfold pretty, pretty_Z.
  - by repeat constructor.
  - apply (pretty_N_not_newline (Npos p)).
  - rewrite list_ascii_of_string_app. apply Forall_app. split.
    + by repeat constructor.
    + apply (pretty_N_not_newline (Npos p)).
Qed.

Lemma progress_text_not_newline steps tid :
  Forall (λ a, a ≠ newline) (progress_text steps tid).
Proof.
  unfold progress_text. rewrite !list_ascii_of_string_app.
  repeat (apply Forall_app; split);
    first [ apply pretty_Z_not_newline | by repeat constructor ].
Qed.

Lemma is_progress_progress_text steps tid :
  is_progress (progress_text steps tid) = true.
Proof.
  unfold is_progress, progress_text. apply bool_decide_eq_true.
  by rewrite !list_ascii_of_string_app.
Qed.

(** ** What a worker writes *)

Lemma emitted_unlines (tail : list Z) :
  Forall digit tail →
  ∃ ls, emitted tail = unlines ls ∧ Forall (Forall is_digit_char) ls.
Proof.
  intros Hds. unfold emitted. destruct (all_even tail).
  - exists [digit_char <$> reverse tail]. split.
    + by rewrite unlines_singleton.
    + repeat constructor. apply Forall_fmap, Forall_reverse.
      eapply Forall_impl; [exact Hds|]. intros d. apply is_digit_char_digit.
  - by exists [].
Qed.

(** Between two progress lines a worker writes match lines only. *)
Lemma iter_apply16_out g (n : N) (s : list Z * stdout) :
  valid g s.1 →
  ∃ ls, (N.iter n apply16 s).2 = s.2 ++ unlines ls
      ∧ Forall (Forall is_digit_char) ls.
Proof.
  intros Hv. induction n as [|n (ls & Hout & Hls)] using N.peano_ind.
  - exists []. split; [|done]. unfold unlines. simpl. by rewrite (right_id_L [] (++)).
  - rewrite N.iter_succ. unfold apply16 at 1. cbn [snd].
    destruct (emitted_unlines (mul16 (N.iter n apply16 s).1)) as (l & -> & Hl).
    { apply Forall_digit_mul16_from. }
    exists (ls ++ l). split.
    + by rewrite Hout, unlines_app, (assoc_L (++)).
    + by apply Forall_app.
Qed.

Lemma reports_succ g tid (k : nat) :
  reports g tid (S k)
  = reports g tid k ++ [progress_text (Z.of_nat (S k) * BATCH g) tid].
Proof. unfold reports. by rewrite seq_S, fmap_app. Qed.

Lemma w_out_run_after g tid (k : N) :
  globals_ok g → 0 ≤ tid ≤ 3 →
  ∃ ls, w_out (run_after g tid k) = unlines ls
      ∧ Forall (Forall (λ a, a ≠ newline)) ls
      ∧ List.filter is_progress ls = reports g tid (N.to_nat k)
      ∧ ((0 < k)%N → last ls = Some (progress_text (Z.of_N k * BATCH g) tid)).
Proof.
  intros Hg Htid. pose proof Hg as [Hdg [Hb0 _]].
  induction k as [|k (ls & Hout & Hnl & Hfilter & _)] using N.peano_ind.
  - exists []. repeat split; [done | lia].
  - rewrite run_after_succ. unfold round_after, worker_after. cbn [w_out w_steps].
    destruct (iter_apply16_out g (Z.to_N (BATCH g))
                (w_tail (run_after g tid k), w_out (run_after g tid k)))
      as (ms & -> & Hms); [by apply valid_run_after|].
    cbn [snd]. rewrite w_steps_run_after, Z2N.id by done.
    replace (Z.of_N k * BATCH g + BATCH g) with (Z.of_N (N.succ k) * BATCH g) by lia.
    exists (ls ++ ms ++ [progress_text (Z.of_N (N.succ k) * BATCH g) tid]).
    split; [|split; [|split]].
    + rewrite Hout, !unlines_app, unlines_singleton, <- !(assoc_L (++)). done.
    + repeat (apply Forall_app; split); [done| |].
      * eapply Forall_impl; [exact Hms|]. intros l Hl.
        eapply Forall_impl; [exact Hl|]. apply not_digit_char_newline.
      * apply Forall_singleton, progress_text_not_newline.
    + rewrite !List.filter_app, Hfilter, filter_is_progress_digits by done.
      cbn [List.filter]. rewrite is_progress_progress_text.
      rewrite N2Nat.inj_succ, reports_succ. cbn [app]. do 3 f_equal. lia.
    + intros _. by rewrite !(assoc_L (++)), last_snoc.
Qed.

(** ** Properties of [times16] *)

Example times16_2048 :
  times16 small_globals [8; 2; 1; 0] []
  = Ok ([8; 4; 0; 2], list_ascii_of_string "2048" ++ [newline]).
Proof. reflexivity. Qed.

Example times16_65536 :
  times16 small_globals [6; 9; 0; 4] [] = Ok ([6; 3; 5; 5], []).
Proof. reflexivity. Qed.

Example times16_short_buffer :
  times16 small_globals [8; 0; 0] [] = Err OutOfBounds.
Proof. reflexivity. Qed.

(** C1.  For every buffer of [DIGITS] digits, each in [0,9], that stands for
    the value [V], one application of [times16] succeeds and leaves a buffer
    of the same kind that stands for [(V * 16) mod 10^DIGITS]; the carry that
    is left after position [DIGITS-1] is exactly the part of [V * 16] that is
    dropped. *)
Theorem times16_multiplies_mod g (tail : list Z) (out : stdout) :
  digits_ok g → valid g tail →
  ∃ tail' out' s,
    times16 g tail out = Ok (tail', out')
    ∧ valid g tail'
    ∧ value tail' = (value tail * 16) `mod` 10 ^ DIGITS g
    ∧ times16_loop g tail = Ok s ∧ l_tail s = tail'
    ∧ value tail * 16 = value tail' + l_carry s * 10 ^ DIGITS g.
Proof.
  intros Hg Hv. pose proof Hv as [Hlen Hds].
  eexists _, _, _. split; [by apply times16_spec|].
  split; [by apply valid_mul16|]. cbn [fst].
  split; [by rewrite value_mul16, Hlen|].
  split; [by apply times16_loop_spec|]. cbn [l_tail l_carry].
  split; [done|].
  pose proof (value_mul16_from 0 tail) as Hval. rewrite Hlen in Hval.
  unfold mul16. lia.
Qed.

Lemma times16_multiplies_mod_witness :
  digits_ok small_globals ∧ valid small_globals [6; 9; 0; 4]
  ∧ ∃ tail' out' s,
      times16 small_globals [6; 9; 0; 4] [] = Ok (tail', out')
      ∧ valid small_globals tail'
      ∧ value tail' = (value [6; 9; 0; 4] * 16) `mod` 10 ^ DIGITS small_globals
      ∧ times16_loop small_globals [6; 9; 0; 4] = Ok s ∧ l_tail s = tail'
      ∧ value [6; 9; 0; 4] * 16
        = value tail' + l_carry s * 10 ^ DIGITS small_globals.
Proof.
  split; [solve_digits_ok|]. split; [solve_valid|].
  apply (times16_multiplies_mod small_globals [6; 9; 0; 4] []);
    [solve_digits_ok | solve_valid].
Defined.

Lemma all_even_spec (ds : list Z) :
  Forall digit ds →
  all_even ds = true ↔ Forall (λ d, d `mod` 2 = 0) ds.
Proof.
  intros Hds. unfold all_even. rewrite forallb_forall, Forall_forall.
  rewrite Forall_forall in Hds.
  split; intros H d Hd.
  - pose proof (Hds d Hd) as Hdig. unfold digit in Hdig.
    apply list_elem_of_In in Hd. apply H, bool_decide_eq_true in Hd.
    by rewrite Z.rem_mod_nonneg in Hd by lia.
  - apply list_elem_of_In in Hd.
    pose proof (Hds d Hd) as Hdig. unfold digit in Hdig.
    apply bool_decide_eq_true. rewrite Z.rem_mod_nonneg by lia. by apply H.
Qed.

(** C2.  For every valid buffer, the flag [good] that the pass of [times16]
    computes is the logical AND of [digit % 2 == 0] over all positions of the
    buffer the pass leaves, which is the buffer [times16] returns: [good] is
    1 when every digit of the result is even and 0 otherwise. *)
Theorem times16_good_flag g (tail : list Z) (out : stdout) :
  digits_ok g → valid g tail →
  ∃ s out',
    times16_loop g tail = Ok s
    ∧ times16 g tail out = Ok (l_tail s, out')
    ∧ l_good s = (if all_even (l_tail s) then 1 else 0)
    ∧ (l_good s ≠ 0 ↔ Forall (λ d, d `mod` 2 = 0) (l_tail s)).
Proof.
  intros Hg Hv.
  eexists _, _. split; [by apply times16_loop_spec|]. cbn [l_tail l_good].
  split; [by apply times16_spec|]. split; [done|].
  rewrite <- all_even_spec by apply Forall_digit_mul16_from.
  by destruct (all_even (mul16 tail)).
Qed.

Lemma times16_good_flag_witness :
  digits_ok small_globals ∧ valid small_globals [8; 2; 1; 0]
  ∧ ∃ s out',
      times16_loop small_globals [8; 2; 1; 0] = Ok s
      ∧ times16 small_globals [8; 2; 1; 0] [] = Ok (l_tail s, out')
      ∧ l_good s = (if all_even (l_tail s) then 1 else 0)
      ∧ (l_good s ≠ 0 ↔ Forall (λ d, d `mod` 2 = 0) (l_tail s)).
Proof.
  split; [solve_digits_ok|]. split; [solve_valid|].
  apply (times16_good_flag small_globals [8; 2; 1; 0] []);
    [solve_digits_ok | solve_valid].
Defined.

(** ** The four workers together *)

Lemma worker_buffer_spec g tid (k : N) :
  digits_ok g → 0 ≤ tid ≤ 3 →
  worker_buffer g tid k = Ok (N.iter k mul16 (seed g tid)).
Proof.
  intros Hg Htid. unfold worker_buffer.
  rewrite worker_init_spec by (done || lia). cbn [mbind result_bind w_tail w_out].
  rewrite times16_iter_spec by (done || by apply valid_seed).
  cbn [mbind result_bind].
  match goal with
  | |- context [N.iter k apply16 ?s] =>
      pose proof (fst_iter_apply16 k s) as Hfst;
      destruct (N.iter k apply16 s) as [tail out]
  end.
  simpl in Hfst. by rewrite Hfst.
Qed.

Lemma value_worker_buffer g tid (k : N) :
  digits_ok g → 0 ≤ tid ≤ 3 →
  valid g (N.iter k mul16 (seed g tid))
  ∧ value (N.iter k mul16 (seed g tid))
    = 2 ^ (tid + 4 * Z.of_N k) `mod` 10 ^ DIGITS g.
Proof.
  intros Hg Htid. pose proof (valid_seed g tid Hg Htid) as Hv.
  split; [by apply valid_iter_mul16|].
  destruct Hv as [Hlen Hds].
  destruct (value_iter_mul16 k (seed g tid) Hds) as (_ & _ & ->).
  rewrite value_seed, Hlen. f_equal.
  rewrite Z.pow_add_r, Z.pow_mul_r by lia. done.
Qed.

Lemma valid_reference g (n : N) :
  digits_ok g →
  valid g (reference g n) ∧ value (reference g n) = 2 ^ Z.of_N n `mod` 10 ^ DIGITS g.
Proof.
  intros [Hd _]. unfold reference. split; [split|].
  - rewrite length_to_digits. lia.
  - apply Forall_digit_to_digits.
  - rewrite value_to_digits, Z2Nat.id by lia.
    apply Z.mod_small, Z.mod_pos_bound, Z.pow_pos_nonneg; lia.
Qed.

(** C3.  With the four workers seeded with [2^i], [i] in [0,3], and stepping by
    the factor 16, the buffer of worker [i] after [k] applications of the
    multiplier stands for [2^(i + 4k) mod 10^DIGITS]; and merged by exponent,
    the states of the four workers over [K] applications each are the
    single-worker reference sequence [2^n mod 10^DIGITS] for
    [n = 0, 1, ..., 4K-1], in this order. *)
Theorem workers_cover_all_exponents g (i : Z) (k : N) (K : nat) :
  digits_ok g → 0 ≤ i ≤ 3 →
  (∃ tail, worker_buffer g i k = Ok tail ∧ valid g tail
         ∧ value tail = 2 ^ (i + 4 * Z.of_N k) `mod` 10 ^ DIGITS g)
  ∧ merged_states g K = Ok <$> reference_states g K.
Proof.
  intros Hg Hi. split.
  - exists (N.iter k mul16 (seed g i)).
    split; [by apply worker_buffer_spec|]. by apply value_worker_buffer.
  - unfold merged_states, reference_states.
    rewrite <- list_fmap_compose. apply list_fmap_ext. intros _ n _.
    unfold compose. cbn beta.
    pose proof (Nat.mod_upper_bound n 4 ltac:(lia)) as Hmod.
    pose proof (Nat.div_mod_eq n 4) as Hdiv.
    rewrite worker_buffer_spec by (done || lia). f_equal.
    destruct (value_worker_buffer g (Z.of_nat (n `mod` 4)) (N.of_nat (n `div` 4)))
      as [[Hlen Hds] Hval]; [done|lia|].
    destruct (valid_reference g (N.of_nat n) Hg) as [[Hlen' Hds'] Hval'].
    apply value_inj; [done|done|lia|].
    rewrite Hval, Hval'. do 2 f_equal. lia.
Qed.

Lemma workers_cover_all_exponents_witness :
  digits_ok small_globals ∧ 0 ≤ 3 ≤ 3
  ∧ (∃ tail, worker_buffer small_globals 3 2 = Ok tail ∧ valid small_globals tail
           ∧ value tail = 2 ^ (3 + 4 * Z.of_N 2) `mod` 10 ^ DIGITS small_globals)
  ∧ merged_states small_globals 3 = Ok <$> reference_states small_globals 3.
Proof.
  split; [solve_digits_ok|]. split; [lia|].
  apply (workers_cover_all_exponents small_globals 3 2 3); [solve_digits_ok | lia].
Defined.

Example merged_states_small :
  merged_states small_globals 4
  = Ok <$> [ [1;0;0;0]; [2;0;0;0]; [4;0;0;0]; [8;0;0;0];
             [6;1;0;0]; [2;3;0;0]; [4;6;0;0]; [8;2;1;0];
             [6;5;2;0]; [2;1;5;0]; [4;2;0;1]; [8;4;0;2];
             [6;9;0;4]; [2;9;1;8]; [4;8;3;6]; [8;6;7;2] ].
Proof. reflexivity. Qed.

(** C4.  The digit-range invariant is preserved: when the buffer has [DIGITS]
    elements, each in [0,9], then so it has after one application of the
    multiplier, and after any number of applications in a row; in
    particular its length stays [DIGITS]. *)
Theorem times16_preserves_valid g (tail : list Z) (out : stdout) (n : N) :
  digits_ok g → valid g tail →
  (∃ tail' out', times16 g tail out = Ok (tail', out')
               ∧ Forall digit tail' ∧ length tail' = length tail)
  ∧ (∃ tail' out', times16_iter g n (tail, out) = Ok (tail', out')
                 ∧ Forall digit tail' ∧ length tail' = length tail
                 ∧ Z.of_nat (length tail') = DIGITS g).
Proof.
  intros Hg Hv. split.
  - eexists _, _. split; [by apply times16_spec|]. cbn [fst].
    split; [apply Forall_digit_mul16_from|]. unfold mul16. apply length_mul16_from.
  - pose proof (valid_iter_apply16 g n (tail, out) Hv) as [Hlen Hds].
    rewrite times16_iter_spec by done.
    destruct (N.iter n apply16 (tail, out)) as [tail' out'].
    exists tail', out'. destruct Hv as [Hlen0 _]. simpl in *.
    repeat split; [done|lia|done].
Qed.

Lemma times16_preserves_valid_witness :
  digits_ok small_globals ∧ valid small_globals [9; 9; 9; 9]
  ∧ (∃ tail' out', times16 small_globals [9; 9; 9; 9] [] = Ok (tail', out')
                 ∧ Forall digit tail' ∧ length tail' = length [9; 9; 9; 9])
  ∧ (∃ tail' out', times16_iter small_globals 5 ([9; 9; 9; 9], []) = Ok (tail', out')
                 ∧ Forall digit tail' ∧ length tail' = length [9; 9; 9; 9]
                 ∧ Z.of_nat (length tail') = DIGITS small_globals).
Proof.
  split; [solve_digits_ok|]. split; [solve_valid|].
  apply (times16_preserves_valid small_globals [9; 9; 9; 9] [] 5);
    [solve_digits_ok | solve_valid].
Defined.

(** C5.  For every worker identity [i] in [0,3], initialisation succeeds and
    leaves a buffer of [DIGITS] digits, each in [0,9], that stands for [2^i]:
    index 0 holds [2^i] and every position above it holds 0; the step counter
    starts at 0, and nothing is written. *)
Theorem worker_init_seeds_power_of_two g (i : Z) :
  digits_ok g → 0 ≤ i ≤ 3 →
  ∃ w, worker_init g i = Ok w
     ∧ valid g (w_tail w)
     ∧ value (w_tail w) = 2 ^ i
     ∧ w_tail w = 2 ^ i :: replicate (Z.to_nat (DIGITS g) - 1) 0
     ∧ w_steps w = 0
     ∧ w_out w = [].
Proof.
  intros Hg Hi. eexists. split; [apply worker_init_spec; (done || lia)|].
  cbn [w_tail w_steps w_out].
  split; [by apply valid_seed|]. split; [apply value_seed|]. done.
Qed.

Lemma worker_init_seeds_power_of_two_witness :
  digits_ok program_globals ∧ 0 ≤ 3 ≤ 3
  ∧ ∃ w, worker_init program_globals 3 = Ok w
       ∧ valid program_globals (w_tail w)
       ∧ value (w_tail w) = 2 ^ 3
       ∧ w_tail w = 2 ^ 3 :: replicate (Z.to_nat (DIGITS program_globals) - 1) 0
       ∧ w_steps w = 0
       ∧ w_out w = [].
Proof.
  split; [solve_digits_ok|]. split; [lia|].
  apply (worker_init_seeds_power_of_two program_globals 3); [solve_digits_ok | lia].
Defined.

Example worker_init_thread_2 :
  worker_init program_globals 2
  = Ok {| w_tail := 4 :: replicate 39 0; w_steps := 0; w_out := [] |}.
Proof. reflexivity. Qed.

(** ** Match lines *)

Example times16_leading_zeros :
  times16 small_globals [4; 0; 0; 0] []
  = Ok ([4; 6; 0; 0], list_ascii_of_string "0064" ++ [newline]).
Proof. reflexivity. Qed.

(** C7.  An application of the multiplier to a valid buffer writes a match
    line if and only if all [DIGITS] digits of the buffer it leaves are even,
    leading zeros included, and writes nothing otherwise; the match line is
    the [DIGITS] digits of that buffer as ASCII decimal digit characters, from
    index [DIGITS-1] down to index 0, followed by one newline. *)
Theorem times16_match_line g (tail : list Z) (out : stdout) :
  digits_ok g → valid g tail →
  ∃ tail' chars,
    times16 g tail out
    = Ok (tail', out ++ (if all_even tail' then chars ++ [newline] else []))
    ∧ (all_even tail' = true ↔ Forall (λ d, d `mod` 2 = 0) tail')
    ∧ chars = digit_char <$> reverse tail'
    ∧ Z.of_nat (length chars) = DIGITS g
    ∧ Forall is_digit_char chars.
Proof.
  intros Hg Hv. pose proof (valid_mul16 g tail Hv) as [Hlen Hds].
  exists (mul16 tail), (digit_char <$> reverse (mul16 tail)).
  split; [by apply times16_spec|].
  split; [by apply all_even_spec|]. split; [done|].
  split; [by rewrite length_fmap, length_reverse|].
  apply Forall_fmap, Forall_reverse.
  eapply Forall_impl; [exact Hds|]. intros d. apply is_digit_char_digit.
Qed.

Lemma times16_match_line_witness :
  digits_ok small_globals ∧ valid small_globals [4; 0; 0; 0]
  ∧ ∃ tail' chars,
      times16 small_globals [4; 0; 0; 0] []
      = Ok (tail', [] ++ (if all_even tail' then chars ++ [newline] else []))
      ∧ (all_even tail' = true ↔ Forall (λ d, d `mod` 2 = 0) tail')
      ∧ chars = digit_char <$> reverse tail'
      ∧ Z.of_nat (length chars) = DIGITS small_globals
      ∧ Forall is_digit_char chars.
Proof.
  split; [solve_digits_ok|]. split; [solve_valid|].
  apply (times16_match_line small_globals [4; 0; 0; 0] []);
    [solve_digits_ok | solve_valid].
Defined.

(** ** No overflow in the pass *)

(** C9.  The arithmetic of the pass of [times16] never overflows.  For every
    buffer with all digits in [0,9] and every round [n] of the pass, the
    locals before and after the round are those of exact integer arithmetic
    ([pass_state]), so no operation has raised [Overflow]; the carry is at
    most 15 before and after the round; and the values the round computes
    from the digit [d] it reads, [d * 6], [d * 6 + carry], of which it stores
    the remainder, and the next carry [d + (d * 6 + carry) / 10], are at most
    54, 69 and 15.  The whole of [times16] ends without error. *)
Theorem times16_no_overflow g (tail : list Z) (out : stdout) (n : N) :
  digits_ok g → valid g tail → Z.of_N n < DIGITS g →
  ∃ s d s' r,
    times16_pass g tail n = Ok s ∧ s = pass_state tail n
    ∧ 0 ≤ l_carry s ≤ 15
    ∧ l_tail s !! N.to_nat n = Some d
    ∧ 0 ≤ d * 6 ≤ 54
    ∧ 0 ≤ d * 6 + l_carry s ≤ 6 * 9 + 15
    ∧ times16_pass g tail (N.succ n) = Ok s' ∧ s' = pass_state tail (N.succ n)
    ∧ l_tail s' !! N.to_nat n = Some (Z.rem (d * 6 + l_carry s) 10)
    ∧ l_carry s' = d + (d * 6 + l_carry s) ÷ 10
    ∧ 0 ≤ l_carry s' ≤ 15
    ∧ times16 g tail out = Ok r.
Proof.
  intros Hg Hv Hn.
  destruct (valid_lookup g tail n Hv Hn) as (d & Hd & Hdig).
  pose proof Hv as [Hlen Hds].
  assert (0 ≤ carry_from 0 (take (N.to_nat n) tail) ≤ 15) as Hcarry
    by (apply carry_from_bounds; [by apply Forall_take | lia]).
  pose proof (carry_step_bounds d _ Hdig Hcarry) as Hnext.
  assert (length (mul16_from 0 (take (N.to_nat n) tail)) = N.to_nat n) as Hdone
    by (rewrite length_mul16_from, length_take; lia).
  exists (pass_state tail n), d, (pass_state tail (N.succ n)), (apply16 (tail, out)).
  split; [apply times16_pass_spec; (done || lia)|]. split; [done|].
  split; [done|].
  split.
  { unfold pass_state, mul16. cbn [l_tail].
    rewrite (drop_S _ d) by done. by apply list_lookup_middle. }
  unfold digit in Hdig. split; [lia|]. split; [cbn [pass_state l_carry]; lia|].
  split; [apply times16_pass_spec; (done || lia)|]. split; [done|].
  unfold pass_state, mul16. cbn [l_tail l_carry].
  rewrite N2Nat.inj_succ, (take_S_r _ _ d) by done.
  rewrite mul16_from_app, carry_from_app. cbn [mul16_from carry_from].
  rewrite Z.rem_mod_nonneg, Z.quot_div_nonneg by lia.
  split.
  { rewrite <- (assoc_L (++)). cbn [app]. by apply list_lookup_middle. }
  split; [done|]. split; [done|]. by apply times16_spec.
Qed.

Lemma times16_no_overflow_witness :
  digits_ok small_globals ∧ valid small_globals [9; 9; 9; 9]
  ∧ Z.of_N 2 < DIGITS small_globals
  ∧ ∃ s d s' r,
      times16_pass small_globals [9; 9; 9; 9] 2 = Ok s
      ∧ s = pass_state [9; 9; 9; 9] 2
      ∧ 0 ≤ l_carry s ≤ 15
      ∧ l_tail s !! N.to_nat 2 = Some d
      ∧ 0 ≤ d * 6 ≤ 54
      ∧ 0 ≤ d * 6 + l_carry s ≤ 6 * 9 + 15
      ∧ times16_pass small_globals [9; 9; 9; 9] (N.succ 2) = Ok s'
      ∧ s' = pass_state [9; 9; 9; 9] (N.succ 2)
      ∧ l_tail s' !! N.to_nat 2 = Some (Z.rem (d * 6 + l_carry s) 10)
      ∧ l_carry s' = d + (d * 6 + l_carry s) ÷ 10
      ∧ 0 ≤ l_carry s' ≤ 15
      ∧ times16 small_globals [9; 9; 9; 9] [] = Ok r.
Proof.
  split; [solve_digits_ok|]. split; [solve_valid|]. split; [simpl; lia|].
  apply (times16_no_overflow small_globals [9; 9; 9; 9] [] 2);
    [solve_digits_ok | solve_valid | simpl; lia].
Defined.

(** The bounds of C9 are reached: on a buffer of nines the carry is 15 and
    the digit value 69 from the third position on. *)
Example times16_pass_nines :
  times16_pass small_globals [9; 9; 9; 9] 2
  = Ok {| l_i := 2; l_tail := [4; 8; 9; 9]; l_carry := 15; l_good := 1 |}
  ∧ times16_pass small_globals [9; 9; 9; 9] 3
    = Ok {| l_i := 3; l_tail := [4; 8; 9; 9]; l_carry := 15; l_good := 0 |}.
Proof. split; reflexivity. Qed.

(** ** The all-zero buffer *)

Lemma mul16_replicate_0 (n : nat) : mul16 (replicate n 0) = replicate n 0.
Proof.
  unfold mul16. induction n as [|n IH]; [done|].
  cbn [replicate mul16_from]. change (0 + (0 * 6 + 0) `div` 10) with 0.
  by rewrite IH.
Qed.

Lemma all_even_replicate_0 (n : nat) : all_even (replicate n 0) = true.
Proof. induction n as [|n IH]; [done|]. simpl. by rewrite IH. Qed.

Lemma apply16_zeros g (out : stdout) :
  apply16 (zeros g, out) = (zeros g, out ++ zero_line g).
Proof.
  unfold apply16, emitted, zeros, zero_line, match_line. cbn [fst snd].
  rewrite mul16_replicate_0, all_even_replicate_0.
  by rewrite reverse_replicate, fmap_replicate.
Qed.

Lemma iter_apply16_zeros g (n : N) (out : stdout) :
  N.iter n apply16 (zeros g, out)
  = (zeros g, out ++ concat (replicate (N.to_nat n) (zero_line g))).
Proof.
  induction n as [|n IH] using N.peano_ind.
  - simpl. by rewrite (right_id_L [] (++)).
  - rewrite N.iter_succ, IH, apply16_zeros, N2Nat.inj_succ. f_equal.
    rewrite <- (assoc_L (++)). f_equal.
    rewrite replicate_S_end, concat_app. simpl. by rewrite (right_id_L [] (++)).
Qed.

Lemma valid_zeros g : digits_ok g → valid g (zeros g).
Proof.
  intros [Hd _]. unfold zeros. split.
  - rewrite length_replicate. lia.
  - apply Forall_digit_replicate_0.
Qed.

(** No power of two ends in [DIGITS] zeros. *)
Lemma pow2_mod_5 (m : Z) : 0 ≤ m → 2 ^ m `mod` 5 ≠ 0.
Proof.
  revert m. apply natlike_ind; [done|].
  intros m Hm IH. rewrite Z.pow_succ_r by done.
  intros H0. apply IH. revert H0. generalize (2 ^ m). intros x.
  Z.div_mod_to_equations. lia.
Qed.

Lemma pow2_mod_pow10 (m D : Z) : 0 ≤ m → 0 < D → 2 ^ m `mod` 10 ^ D ≠ 0.
Proof.
  intros Hm HD H0. apply (pow2_mod_5 m Hm).
  apply Z.mod_divide in H0; [|apply Z.pow_nonzero; lia].
  apply Z.mod_divide; [lia|].
  etrans; [|exact H0]. exists (2 * 10 ^ (D - 1)).
  replace D with (Z.succ (D - 1)) at 1 by lia.
  rewrite Z.pow_succ_r by lia. lia.
Qed.

(** C10.  The all-zero buffer is a fixed point of the multiplier that reports
    every time: one application leaves the buffer all zero and writes the
    match line of [DIGITS] characters [0]; and [n] applications in a row
    leave it all zero and write that line [n] times.  No worker ever holds
    this buffer: seeded with [2^i], [i] in [0,3], its buffer is not all zero
    after any number [k] of applications. *)
Theorem times16_zeros_fixed_point g (out : stdout) (n : N) (i : Z) (k : N) :
  digits_ok g → 0 ≤ i ≤ 3 →
  times16 g (zeros g) out = Ok (zeros g, out ++ zero_line g)
  ∧ times16_iter g n (zeros g, out)
    = Ok (zeros g, out ++ concat (replicate (N.to_nat n) (zero_line g)))
  ∧ worker_buffer g i k ≠ Ok (zeros g).
Proof.
  intros Hg Hi. pose proof (valid_zeros g Hg) as Hv. split; [|split].
  - rewrite times16_spec by done. by rewrite apply16_zeros.
  - rewrite times16_iter_spec by done. by rewrite iter_apply16_zeros.
  - rewrite worker_buffer_spec by done. intros [= Heq].
    destruct (value_worker_buffer g i k Hg Hi) as [_ Hval].
    rewrite Heq in Hval. unfold zeros in Hval. rewrite value_replicate_0 in Hval.
    destruct Hg as [Hd _]. by apply (pow2_mod_pow10 (i + 4 * Z.of_N k) (DIGITS g)); [lia..|].
Qed.

Lemma times16_zeros_fixed_point_witness :
  digits_ok program_globals ∧ 0 ≤ 1 ≤ 3
  ∧ times16 program_globals (zeros program_globals) []
    = Ok (zeros program_globals, [] ++ zero_line program_globals)
  ∧ times16_iter program_globals 3 (zeros program_globals, [])
    = Ok (zeros program_globals,
          [] ++ concat (replicate (N.to_nat 3) (zero_line program_globals)))
  ∧ worker_buffer program_globals 1 7 ≠ Ok (zeros program_globals).
Proof.
  split; [solve_digits_ok|]. split; [lia|].
  apply (times16_zeros_fixed_point program_globals [] 3 1 7); [solve_digits_ok | lia].
Defined.

Example times16_zeros_small :
  times16 small_globals [0; 0; 0; 0] []
  = Ok ([0; 0; 0; 0], list_ascii_of_string "0000" ++ [newline]).
Proof. reflexivity. Qed.

(** ** The assertion of [main] *)

Example main_team_of_two :
  main small_globals 4 2 (λ _, 0%N)
  = Running [ Ok {| w_tail := [1; 0; 0; 0]; w_steps := 0; w_out := [] |};
              Ok {| w_tail := [2; 0; 0; 0]; w_steps := 0; w_out := [] |} ].
Proof. reflexivity. Qed.

Example main_bound_of_eight :
  main small_globals 8 4 (λ _, 0%N)
  = Aborted "main.c:55: main: Assertion `omp_get_max_threads() == 4' failed.".
Proof. reflexivity. Qed.




(** ** Progress reports *)

Example worker_run_small :
  worker_run small_globals 3 2
  = Ok {| w_tail := [8; 2; 7; 7]; w_steps := 6;
          w_out := list_ascii_of_string "2048" ++ [newline]
                   ++ list_ascii_of_string "Steps: 3 from 3" ++ [newline]
                   ++ list_ascii_of_string "4288" ++ [newline]
                   ++ list_ascii_of_string "8608" ++ [newline]
                   ++ list_ascii_of_string "Steps: 6 from 3" ++ [newline] |}.
Proof. reflexivity. Qed.

(** C8, as amended.  As long as the cumulative count [k * BATCH] fits the
    [long long] counter, worker [tid] completes its [k]-th round; by then
    [k * BATCH] applications of the multiplier lie behind it, its output holds
    exactly [k] progress lines, one per [BATCH] applications, the [j]-th
    reading [Steps: <j * BATCH> from <tid>], and the [k]-th is the last line
    written. *)
Theorem worker_reports_every_batch g (tid : Z) (k : N) :
  globals_ok g → 0 ≤ tid ≤ 3 → (0 < k)%N → Z.of_N k * BATCH g ≤ LLONG_MAX →
  reports_every_batch g tid k.
Proof.
  intros Hg Htid Hk Hmax. pose proof Hg as [Hdg [Hb0 _]].
  exists (run_after g tid k).
  split; [by apply worker_run_spec|].
  split; [by rewrite worker_buffer_spec, w_tail_run_after|].
  split; [by apply w_steps_run_after|].
  destruct (w_out_run_after g tid k Hg Htid) as (ls & Hout & Hnl & Hfilter & Hlast).
  unfold progress_lines.
  rewrite Hout, <- (right_id_L [] (++) (unlines ls)), lines_unlines by done.
  cbn [lines]. rewrite (right_id_L [] (++)). split; [done | by apply Hlast].
Qed.

Lemma worker_reports_every_batch_witness :
  globals_ok small_globals ∧ 0 ≤ 1 ≤ 3 ∧ (0 < 2)%N
  ∧ Z.of_N 2 * BATCH small_globals ≤ LLONG_MAX
  ∧ reports_every_batch small_globals 1 2.
Proof.
  split; [solve_globals_ok|]. split; [lia|]. split; [lia|].
  split; [unfold LLONG_MAX; simpl; lia|].
  apply (worker_reports_every_batch small_globals 1 2);
    [solve_globals_ok | lia | lia | unfold LLONG_MAX; simpl; lia].
Defined.

(** With the globals of the program the counter passes [LLONG_MAX] during
    round 9223372037: the round does not complete. *)
Lemma worker_run_program_overflow :
  worker_run program_globals 0 9223372037 = Err Overflow.
Proof.
  change 9223372037%N with (N.succ 9223372036).
  apply worker_run_overflow.
  - solve_globals_ok.
  - lia.
  - unfold LLONG_MAX. simpl. lia.
  - unfold LLONG_MAX. simpl. lia.
Qed.

(** C8, as stated, fails for worker 0 and [k = 9223372037]: the count
    [k * BATCH] is above [LLONG_MAX], no [long long] holds it, and the run
    does not reach a [k]-th progress report. *)
Lemma worker_reports_every_batch_counterexample :
  ¬ reports_every_batch program_globals 0 9223372037.
Proof.
  intros (w & Hrun & _). rewrite worker_run_program_overflow in Hrun. discriminate.
Qed.

(** * Further properties of the code *)

(** ** The pass on arrays that are not digit buffers *)

Lemma carry_step_bounded d c :
  bounded d → 0 ≤ c ≤ 536870910 → 0 ≤ d + (d * 6 + c) `div` 10 ≤ 536870910.
Proof.
  unfold bounded. intros Hd Hc.
  assert (0 ≤ (d * 6 + c) `div` 10 ≤ 214748364); [|lia].
  split; [apply Z.div_pos; lia|].
  apply Z.lt_succ_r, Z.div_lt_upper_bound; lia.
Qed.

Lemma carry_from_bounded c ds :
  Forall bounded ds → 0 ≤ c ≤ 536870910 → 0 ≤ carry_from c ds ≤ 536870910.
Proof.
  intros Hds. revert c. induction Hds as [|d ds Hd _ IH]; intros c Hc; simpl; [done|].
  by apply IH, carry_step_bounded.
Qed.

Lemma times16_body_bounded (l1 l2 : list Z) d c gd i :
  i = Z.of_nat (length l1) → i + 1 ≤ INT_MAX →
  bounded d → 0 ≤ c ≤ 536870910 →
  times16_body {| l_i := i; l_tail := l1 ++ d :: l2; l_carry := c; l_good := gd |}
  = Ok {| l_i := i + 1;
          l_tail := l1 ++ (d * 6 + c) `mod` 10 :: l2;
          l_carry := d + (d * 6 + c) `div` 10;
          l_good := Z.land gd
            (if bool_decide (Z.rem ((d * 6 + c) `mod` 10) 2 = 0) then 1 else 0) |}.
Proof.
  intros Hi Hmax Hd Hc. unfold bounded in Hd.
  pose proof (carry_step_bounded d c Hd Hc) as Hnext.
  unfold INT_MAX in Hmax.
  unfold times16_body. cbn [l_i l_tail l_carry l_good].
  repeat (first [ rewrite load_middle by done
                | rewrite store_middle by done
                | rewrite Z.quot_div_nonneg by lia
                | rewrite Z.rem_mod_nonneg by lia
                | rewrite int_ok by (unfold INT_MIN, INT_MAX; lia) ];
          cbn [mbind result_bind]).
  done.
Qed.

(** A round of the pass on an element in range follows [pass_state],
    whatever lies above the element. *)
Lemma times16_body_pass_state_bounded (tail : list Z) (k : N) d :
  tail !! N.to_nat k = Some d → bounded d →
  Forall bounded (take (N.to_nat k) tail) → Z.of_N k < INT_MAX →
  times16_body (pass_state tail k) = Ok (pass_state tail (N.succ k)).
Proof.
  intros Hd Hb Hds Hk.
  pose proof (lookup_lt_Some _ _ _ Hd) as Hlen.
  unfold pass_state. rewrite N2Nat.inj_succ, N2Z.inj_succ.
  rewrite (take_S_r _ _ d), (drop_S _ d (N.to_nat k)) by done.
  unfold mul16. rewrite mul16_from_app, carry_from_app. cbn [mul16_from carry_from].
  rewrite all_even_snoc, <- land_flags, <- (assoc_L (++)). cbn [app].
  apply times16_body_bounded; [| lia | done |].
  - rewrite length_mul16_from, length_take. lia.
  - apply carry_from_bounded; [done | lia].
Qed.

Lemma times16_pass_bounded g (tail : list Z) (n : N) :
  Forall bounded tail → (N.to_nat n ≤ length tail)%nat →
  Z.of_N n ≤ DIGITS g → DIGITS g ≤ INT_MAX →
  times16_pass g tail n = Ok (pass_state tail n).
Proof.
  intros Hds Hlen Hn Hmax. unfold times16_pass. rewrite <- pass_state_0.
  apply (iter_trajectory _ _ (pass_state tail) n); [|lia].
  intros k Hk. split.
  - unfold times16_cond. apply bool_decide_eq_true. simpl. lia.
  - destruct (lookup_lt_is_Some_2 tail (N.to_nat k)) as [d Hd]; [lia|].
    apply (times16_body_pass_state_bounded tail k d); [done| |by apply Forall_take|lia].
    by eapply Forall_lookup_1.
Qed.

(** The pass touches the first [DIGITS] elements only. *)
Lemma times16_loop_frame g (front back : list Z) :
  digits_ok g → Z.of_nat (length front) = DIGITS g → Forall bounded front →
  times16_loop g (front ++ back)
  = Ok {| l_i := DIGITS g; l_tail := mul16 front ++ back;
          l_carry := carry_from 0 front;
          l_good := if all_even (mul16 front) then 1 else 0 |}.
Proof.
  intros [Hd Hmax] Hlen Hds. unfold times16_loop. rewrite <- pass_state_0.
  rewrite (while_trajectory _ _ (pass_state (front ++ back)) (Z.to_N (DIGITS g))).
  - unfold pass_state.
    rewrite take_app_length', drop_app_length' by lia. by rewrite Z2N.id by lia.
  - intros k Hk. split.
    + unfold times16_cond. apply bool_decide_eq_true. simpl. lia.
    + destruct (lookup_lt_is_Some_2 front (N.to_nat k)) as [d Hdk]; [lia|].
      apply (times16_body_pass_state_bounded _ k d); [| | |lia].
      * rewrite lookup_app_l by lia. done.
      * by eapply Forall_lookup_1.
      * rewrite take_app_le by lia. by apply Forall_take.
  - unfold times16_cond. apply bool_decide_eq_false. simpl. lia.
  - lia.
Qed.

Lemma print_body_print_state_frame (tail back : list Z) out (k : N) :
  Forall digit tail → (N.to_nat k < length tail)%nat →
  Z.of_nat (length tail) ≤ INT_MAX →
  print_body (tail ++ back) (print_state tail out k)
  = Ok (print_state tail out (N.succ k)).
Proof.
  intros Hds Hk Hmax. unfold INT_MAX in Hmax.
  destruct (lookup_lt_is_Some_2 (reverse tail) (N.to_nat k)) as [d Hd];
    [rewrite length_reverse; lia|].
  assert (digit d) as Hdig.
  { eapply Forall_lookup_1; [|exact Hd]. by apply Forall_reverse. }
  unfold print_state, print_body.
  rewrite N2Nat.inj_succ, (take_S_r _ _ d), fmap_app by done.
  rewrite reverse_lookup in Hd by lia.
  unfold load. rewrite bool_decide_true by lia.
  replace (Z.to_nat (Z.of_nat (length tail) - 1 - Z.of_N k))
    with (length tail - S (N.to_nat k))%nat by lia.
  rewrite lookup_app_l by lia.
  rewrite Hd. cbn [mbind result_bind]. unfold digit in Hdig.
  rewrite !int_ok by (unfold INT_MIN, INT_MAX; lia). cbn [mbind result_bind].
  rewrite putchar_digit by done. rewrite <- (assoc_L (++)).
  do 2 f_equal. lia.
Qed.

Lemma print_loop_frame g (tail back : list Z) out :
  digits_ok g → valid g tail →
  while print_cond (print_body (tail ++ back)) (Z.to_N (DIGITS g)) (DIGITS g - 1, out)
  = Ok (-1, out ++ (digit_char <$> reverse tail)).
Proof.
  intros [Hd Hmax] [Hlen Hds].
  replace (DIGITS g - 1, out) with (print_state tail out 0)
    by (unfold print_state; simpl; rewrite (right_id_L [] (++)); f_equal; lia).
  rewrite (while_trajectory _ _ (print_state tail out) (Z.to_N (DIGITS g))).
  - unfold print_state. rewrite take_ge by (rewrite length_reverse; lia).
    do 2 f_equal. lia.
  - intros k Hk. split.
    + unfold print_cond, print_state. apply bool_decide_eq_true. simpl. lia.
    + apply print_body_print_state_frame; (done || lia).
  - unfold print_cond, print_state. apply bool_decide_eq_false. simpl. lia.
  - lia.
Qed.

Lemma valid_mul16_length g (tail : list Z) :
  Z.of_nat (length tail) = DIGITS g → valid g (mul16 tail).
Proof.
  intros Hlen. split.
  - unfold mul16. by rewrite length_mul16_from.
  - apply Forall_digit_mul16_from.
Qed.

Lemma times16_frame_spec g (front back : list Z) out :
  digits_ok g → Z.of_nat (length front) = DIGITS g → Forall bounded front →
  times16 g (front ++ back) out
  = Ok (mul16 front ++ back, out ++ emitted (mul16 front)).
Proof.
  intros Hg Hlen Hds. unfold times16, emitted.
  rewrite times16_loop_frame by done. cbn [mbind result_bind l_good l_tail].
  destruct (all_even (mul16 front)).
  - rewrite bool_decide_true by done.
    rewrite int_ok by (destruct Hg as [? ?]; unfold INT_MIN, INT_MAX in *; lia).
    cbn [mbind result_bind].
    rewrite (print_loop_frame g) by (done || by apply valid_mul16_length).
    cbn [mbind result_bind]. rewrite putchar_newline.
    unfold match_line. by rewrite (assoc_L (++)).
  - rewrite bool_decide_false by (intros ?; done). by rewrite (right_id_L [] (++)).
Qed.

Lemma times16_bounded_spec g (tail : list Z) out :
  digits_ok g → Z.of_nat (length tail) = DIGITS g → Forall bounded tail →
  times16 g tail out = Ok (mul16 tail, out ++ emitted (mul16 tail)).
Proof.
  intros Hg Hlen Hds.
  pose proof (times16_frame_spec g tail [] out Hg Hlen Hds) as H.
  by rewrite !(right_id_L [] (++)) in H.
Qed.

Lemma value_mul16_length (ds : list Z) :
  value (mul16 ds) = (value ds * 16) `mod` 10 ^ Z.of_nat (length ds).
Proof.
  unfold mul16.
  pose proof (value_mul16_from 0 ds) as Hv.
  pose proof (value_bounds (mul16_from 0 ds) (Forall_digit_mul16_from 0 ds)) as Hb.
  rewrite length_mul16_from in Hb.
  replace (value ds * 16) with
    (value (mul16_from 0 ds) + carry_from 0 ds * 10 ^ Z.of_nat (length ds)) by lia.
  rewrite Z.mod_add by lia. by rewrite Z.mod_small.
Qed.

Example times16_seed_16 :
  times16 small_globals [16; 0; 0; 0] [] = Ok ([6; 5; 2; 0], []).
Proof. reflexivity. Qed.

(** X1.  [times16] does not need its input to be a digit buffer: on every
    array of [DIGITS] elements between 0 and [2^28 - 1] it runs without
    overflow and leaves a digit buffer, [DIGITS] elements in [0,9], that
    stands for [(V * 16) mod 10^DIGITS], where [V] is the weighted sum the
    input stands for. *)
Theorem times16_normalises g (tail : list Z) (out : stdout) :
  digits_ok g → Z.of_nat (length tail) = DIGITS g → Forall bounded tail →
  ∃ tail' out',
    times16 g tail out = Ok (tail', out')
    ∧ valid g tail'
    ∧ value tail' = (value tail * 16) `mod` 10 ^ DIGITS g.
Proof.
  intros Hg Hlen Hds. eexists _, _.
  split; [by apply times16_bounded_spec|].
  split; [by apply valid_mul16_length|].
  by rewrite value_mul16_length, Hlen.
Qed.

Lemma times16_normalises_witness :
  digits_ok small_globals
  ∧ Z.of_nat (length [16; 300; 0; 268435455]) = DIGITS small_globals
  ∧ Forall bounded [16; 300; 0; 268435455]
  ∧ ∃ tail' out',
      times16 small_globals [16; 300; 0; 268435455] [] = Ok (tail', out')
      ∧ valid small_globals tail'
      ∧ value tail'
        = (value [16; 300; 0; 268435455] * 16) `mod` 10 ^ DIGITS small_globals.
Proof.
  split; [solve_digits_ok|]. split; [reflexivity|].
  split; [repeat constructor; unfold bounded; lia|].
  apply (times16_normalises small_globals [16; 300; 0; 268435455] []);
    [solve_digits_ok | reflexivity | repeat constructor; unfold bounded; lia].
Defined.

(** X2.  [times16] reads and writes the first [DIGITS] elements only: on an
    array that is longer, the elements from index [DIGITS] on are left as
    they are, whatever they hold, and the result and the output are those of
    the call on the first [DIGITS] elements alone. *)
Theorem times16_frame g (front back : list Z) (out : stdout) :
  digits_ok g → Z.of_nat (length front) = DIGITS g → Forall bounded front →
  ∃ tail' out',
    times16 g front out = Ok (tail', out')
    ∧ times16 g (front ++ back) out = Ok (tail' ++ back, out').
Proof.
  intros Hg Hlen Hds. eexists _, _.
  split; [by apply times16_bounded_spec|]. by apply times16_frame_spec.
Qed.

Lemma times16_frame_witness :
  digits_ok small_globals
  ∧ Z.of_nat (length [8; 2; 1; 0]) = DIGITS small_globals
  ∧ Forall bounded [8; 2; 1; 0]
  ∧ ∃ tail' out',
      times16 small_globals [8; 2; 1; 0] [] = Ok (tail', out')
      ∧ times16 small_globals ([8; 2; 1; 0] ++ [77; -5]) [] = Ok (tail' ++ [77; -5], out').
Proof.
  split; [solve_digits_ok|]. split; [reflexivity|].
  split; [repeat constructor; unfold bounded; lia|].
  apply (times16_frame small_globals [8; 2; 1; 0] [77; -5] []);
    [solve_digits_ok | reflexivity | repeat constructor; unfold bounded; lia].
Defined.

(** ** Arrays that are too short *)

Lemma times16_body_past_end (s : locals) :
  Z.of_nat (length (l_tail s)) ≤ l_i s → times16_body s = Err OutOfBounds.
Proof.
  intros Hlen. unfold times16_body, load.
  rewrite bool_decide_true by lia.
  by rewrite lookup_ge_None_2 by lia.
Qed.

(** X3.  [times16] always runs to index [DIGITS-1]: on an array with fewer
    than [DIGITS] elements it reads past the end.  In the model the call
    yields [OutOfBounds], and writes nothing. *)
Theorem times16_short_array g (tail : list Z) (out : stdout) :
  digits_ok g → Forall bounded tail → Z.of_nat (length tail) < DIGITS g →
  times16 g tail out = Err OutOfBounds.
Proof.
  intros [Hd Hmax] Hds Hlen.
  set (len := N.of_nat (length tail)).
  assert (times16_pass g tail (N.succ len) = Err OutOfBounds) as Hpass.
  { unfold times16_pass. rewrite N.iter_succ.
    fold (times16_pass g tail len).
    rewrite times16_pass_bounded by (done || lia).
    unfold loop_step. cbn [mbind result_bind].
    unfold times16_cond. rewrite bool_decide_true by (simpl; lia).
    apply times16_body_past_end. unfold pass_state, mul16. cbn [l_tail l_i].
    rewrite length_app, length_mul16_from, length_take, length_drop. lia. }
  unfold times16, times16_loop, while.
  replace (Z.to_N (DIGITS g)) with ((Z.to_N (DIGITS g) - N.succ len) + N.succ len)%N
    by lia.
  rewrite N.iter_add. fold (times16_pass g tail (N.succ len)).
  by rewrite Hpass, iter_loop_step_err.
Qed.

Lemma times16_short_array_witness :
  digits_ok small_globals ∧ Forall bounded [8; 0; 0]
  ∧ Z.of_nat (length [8; 0; 0]) < DIGITS small_globals
  ∧ times16 small_globals [8; 0; 0] [] = Err OutOfBounds.
Proof.
  split; [solve_digits_ok|].
  split; [repeat constructor; unfold bounded; lia|]. split; [simpl; lia|].
  apply (times16_short_array small_globals [8; 0; 0] []);
    [solve_digits_ok | repeat constructor; unfold bounded; lia | simpl; lia].
Defined.

(** ** No digits at all *)

(** X4.  With [DIGITS] zero or negative the pass does not run, [good] keeps
    its initial value 1 and the printing loop does not run either: [times16]
    leaves any array as it is and writes a bare newline. *)
Theorem times16_no_digits g (tail : list Z) (out : stdout) :
  INT_MIN < DIGITS g ≤ 0 →
  times16 g tail out = Ok (tail, out ++ [newline]).
Proof.
  intros [Hmin Hd]. unfold times16, times16_loop, while.
  replace (Z.to_N (DIGITS g)) with 0%N by lia. cbn [N.iter mbind result_bind].
  unfold times16_cond. cbn [times16_init l_i l_good l_tail].
  rewrite bool_decide_false by lia. cbn [mbind result_bind].
  rewrite bool_decide_true by done.
  rewrite int_ok by (unfold INT_MIN, INT_MAX in *; lia). cbn [mbind result_bind].
  unfold print_cond. cbn [fst]. rewrite bool_decide_false by lia.
  cbn [mbind result_bind]. by rewrite putchar_newline.
Qed.

Lemma times16_no_digits_witness :
  INT_MIN < DIGITS {| DIGITS := 0; BATCH := 3 |} ≤ 0
  ∧ times16 {| DIGITS := 0; BATCH := 3 |} [7; 7] [] = Ok ([7; 7], [] ++ [newline]).
Proof.
  split; [unfold INT_MIN; simpl; lia|].
  apply (times16_no_digits {| DIGITS := 0; BATCH := 3 |} [7; 7] []).
  unfold INT_MIN; simpl; lia.
Defined.

(** ** Several applications in a row *)

Lemma times16_iter_err g (n : N) e :
  N.iter n (λ r, '(tail, out) ← r; times16 g tail out) (Err e) = Err e.
Proof.
  induction n as [|n IH] using N.peano_ind; [done|].
  by rewrite N.iter_succ, IH.
Qed.

(** X5.  Applications of [times16] compose: [n] applications in a row on a
    digit buffer that stands for [V] succeed and leave a digit buffer that
    stands for [(V * 16^n) mod 10^DIGITS], and [m + n] applications are [n]
    applications followed by [m] applications on their result and output. *)
Theorem times16_iter_multiplies g (tail : list Z) (out : stdout) (m n : N) :
  digits_ok g → valid g tail →
  (∃ tail' out',
     times16_iter g n (tail, out) = Ok (tail', out')
     ∧ valid g tail'
     ∧ value tail' = (value tail * 16 ^ Z.of_N n) `mod` 10 ^ DIGITS g)
  ∧ times16_iter g (m + n) (tail, out)
    = (s ← times16_iter g n (tail, out); times16_iter g m s).
Proof.
  intros Hg Hv. split.
  - pose proof (valid_iter_apply16 g n (tail, out) Hv) as Hv'.
    pose proof (fst_iter_apply16 n (tail, out)) as Hfst.
    rewrite times16_iter_spec by done.
    destruct (N.iter n apply16 (tail, out)) as [tail' out'].
    exists tail', out'. split; [done|]. split; [done|].
    simpl in Hfst. rewrite Hfst.
    destruct Hv as [Hlen Hds].
    destruct (value_iter_mul16 n tail Hds) as (_ & _ & ->). by rewrite Hlen.
  - unfold times16_iter. rewrite N.iter_add.
    destruct (N.iter n _ (Ok (tail, out))) as [s|e]; [done|].
    apply times16_iter_err.
Qed.

Lemma times16_iter_multiplies_witness :
  digits_ok small_globals ∧ valid small_globals [8; 0; 0; 0]
  ∧ (∃ tail' out',
       times16_iter small_globals 3 ([8; 0; 0; 0], []) = Ok (tail', out')
       ∧ valid small_globals tail'
       ∧ value tail' = (value [8; 0; 0; 0] * 16 ^ Z.of_N 3) `mod` 10 ^ DIGITS small_globals)
  ∧ times16_iter small_globals (2 + 3) ([8; 0; 0; 0], [])
    = (s ← times16_iter small_globals 3 ([8; 0; 0; 0], []);
       times16_iter small_globals 2 s).
Proof.
  split; [solve_digits_ok|]. split; [solve_valid|].
  apply (times16_iter_multiplies small_globals [8; 0; 0; 0] [] 2 3);
    [solve_digits_ok | solve_valid].
Defined.

(** ** Reading a match line back *)

Lemma read_decimal_snoc (l : list ascii) a :
  read_decimal (l ++ [a]) = read_decimal l * 10 + digit_of_char a.
Proof. unfold read_decimal. by rewrite fold_left_app. Qed.

Lemma digit_of_char_digit d : digit d → digit_of_char (digit_char d) = d.
Proof.
  unfold digit. intros Hd.
  assert (d = 0 ∨ d = 1 ∨ d = 2 ∨ d = 3 ∨ d = 4 ∨ d = 5 ∨ d = 6 ∨ d = 7
          ∨ d = 8 ∨ d = 9) as Hcases by lia.
  repeat destruct Hcases as [-> | Hcases]; try subst d; done.
Qed.

Lemma read_decimal_line_of (ds : list Z) :
  Forall digit ds → read_decimal (line_of ds) = value ds.
Proof.
  induction 1 as [|d ds Hd _ IH]; [done|].
  unfold line_of in *. rewrite reverse_cons, fmap_app. cbn [fmap list_fmap].
  rewrite read_decimal_snoc, IH, digit_of_char_digit by done.
  cbn [value]. lia.
Qed.

(** X6.  A match line can be read back: the [DIGITS] characters that
    [times16] writes before the newline, read as a decimal number with the
    highest digit first, are the value of the buffer the call leaves, that
    is [(V * 16) mod 10^DIGITS]. *)
Theorem times16_match_line_reads_back g (tail : list Z) (out : stdout) :
  digits_ok g → valid g tail →
  ∃ tail' chars,
    times16 g tail out
    = Ok (tail', out ++ (if all_even tail' then chars ++ [newline] else []))
    ∧ read_decimal chars = value tail'
    ∧ read_decimal chars = (value tail * 16) `mod` 10 ^ DIGITS g.
Proof.
  intros Hg Hv. pose proof (valid_mul16 g tail Hv) as [Hlen' Hds'].
  destruct Hv as [Hlen Hds].
  exists (mul16 tail), (line_of (mul16 tail)).
  split; [by apply times16_spec|].
  rewrite read_decimal_line_of by done. split; [done|].
  by rewrite value_mul16, Hlen.
Qed.

Lemma times16_match_line_reads_back_witness :
  digits_ok small_globals ∧ valid small_globals [8; 2; 1; 0]
  ∧ ∃ tail' chars,
      times16 small_globals [8; 2; 1; 0] []
      = Ok (tail', [] ++ (if all_even tail' then chars ++ [newline] else []))
      ∧ read_decimal chars = value tail'
      ∧ read_decimal chars
        = (value [8; 2; 1; 0] * 16) `mod` 10 ^ DIGITS small_globals.
Proof.
  split; [solve_digits_ok|]. split; [solve_valid|].
  apply (times16_match_line_reads_back small_globals [8; 2; 1; 0] []);
    [solve_digits_ok | solve_valid].
Defined.

Example read_decimal_2048 :
  read_decimal (list_ascii_of_string "2048") = 2048.
Proof. reflexivity. Qed.

(** ** The match lines of a worker *)

Lemma visited_succ (tail : list Z) (n : nat) :
  visited tail (S n) = visited tail n ++ [N.iter (N.of_nat (S n)) mul16 tail].
Proof. unfold visited. by rewrite seq_S, fmap_app. Qed.

Lemma visited_add (tail : list Z) (a b : nat) :
  visited tail (a + b)
  = visited tail a ++ visited (N.iter (N.of_nat a) mul16 tail) b.
Proof.
  unfold visited. rewrite seq_app, fmap_app. f_equal.
  rewrite (Nat.add_comm 1 a), <- fmap_add_seq, <- list_fmap_compose.
  apply list_fmap_ext. intros _ j _. unfold compose.
  rewrite Nat2N.inj_add, (N.add_comm (N.of_nat a)). apply N.iter_add.
Qed.

Lemma emitted_line_of (tail : list Z) :
  emitted tail = unlines (line_of <$> List.filter all_even [tail]).
Proof.
  unfold emitted. cbn [List.filter]. destruct (all_even tail); [|done].
  cbn [fmap list_fmap]. by rewrite unlines_singleton.
Qed.

(** What [n] applications write: the match lines of the all-even ones among
    the buffers they leave, in order. *)
Lemma iter_apply16_out_visited (n : nat) (s : list Z * stdout) :
  (N.iter (N.of_nat n) apply16 s).2
  = s.2 ++ unlines (line_of <$> List.filter all_even (visited s.1 n)).
Proof.
  induction n as [|n IH].
  - unfold unlines. simpl. by rewrite (right_id_L [] (++)).
  - rewrite visited_succ, List.filter_app, fmap_app, unlines_app, (assoc_L (++)).
    rewrite <- IH, <- emitted_line_of.
    rewrite !Nat2N.inj_succ, !N.iter_succ. unfold apply16 at 1. cbn [snd].
    by rewrite fst_iter_apply16.
Qed.

Lemma iter_apply16_out_visited_N (n : N) (s : list Z * stdout) :
  (N.iter n apply16 s).2
  = s.2 ++ unlines (line_of <$> List.filter all_even (visited s.1 (N.to_nat n))).
Proof.
  pose proof (iter_apply16_out_visited (N.to_nat n) s) as H.
  by rewrite N2Nat.id in H.
Qed.

Lemma Forall_digit_visited (tail : list Z) (n : nat) :
  Forall digit tail → Forall (Forall digit) (visited tail n).
Proof.
  intros Hds. unfold visited. apply Forall_fmap, Forall_forall. intros j _.
  by destruct (value_iter_mul16 (N.of_nat j) tail Hds) as (_ & ? & _).
Qed.

Lemma Forall_filter_list {A} (P : A → Prop) (f : A → bool) (l : list A) :
  Forall P l → Forall P (List.filter f l).
Proof.
  induction 1 as [|x l Hx _ IH]; [done|].
  simpl. destruct (f x); [by constructor | done].
Qed.

Lemma visited_lines_digits (tail : list Z) (n : nat) :
  Forall digit tail →
  Forall (Forall is_digit_char) (line_of <$> List.filter all_even (visited tail n)).
Proof.
  intros Hds. apply Forall_fmap, Forall_filter_list.
  eapply Forall_impl; [by apply Forall_digit_visited|].
  intros t Ht. apply Forall_fmap, Forall_reverse.
  eapply Forall_impl; [exact Ht|]. intros d. apply is_digit_char_digit.
Qed.

Lemma filter_not_progress_digits (ls : list (list ascii)) :
  Forall (Forall is_digit_char) ls →
  List.filter (λ l, negb (is_progress l)) ls = ls.
Proof.
  induction 1 as [|l ls Hl _ IH]; [done|].
  simpl. by rewrite is_progress_digits, IH.
Qed.

Lemma run_after_out_matches g tid (k : N) :
  globals_ok g → 0 ≤ tid ≤ 3 →
  ∃ ls, w_out (run_after g tid k) = unlines ls
      ∧ Forall (Forall (λ a, a ≠ newline)) ls
      ∧ List.filter (λ l, negb (is_progress l)) ls
        = line_of <$> List.filter all_even
            (visited (seed g tid) (N.to_nat (k * Z.to_N (BATCH g)))).
Proof.
  intros Hg Htid. pose proof Hg as [Hdg [Hb0 _]].
  induction k as [|k (ls & Hout & Hnl & Hfilter)] using N.peano_ind.
  - exists []. by repeat split.
  - pose proof (valid_run_after g tid k Hg Htid) as [_ Hds].
    rewrite run_after_succ. unfold round_after, worker_after. cbn [w_out w_steps].
    rewrite iter_apply16_out_visited_N. cbn [fst snd].
    set (ms := line_of <$> List.filter all_even
                 (visited (w_tail (run_after g tid k)) (N.to_nat (Z.to_N (BATCH g))))).
    assert (Forall (Forall is_digit_char) ms) as Hms by (by apply visited_lines_digits).
    exists (ls ++ ms ++ [progress_text
                          (w_steps (run_after g tid k) + Z.of_N (Z.to_N (BATCH g))) tid]).
    split; [|split].
    + rewrite Hout, !unlines_app, unlines_singleton, <- !(assoc_L (++)). done.
    + repeat (apply Forall_app; split); [done| |].
      * eapply Forall_impl; [exact Hms|]. intros l Hl.
        eapply Forall_impl; [exact Hl|]. apply not_digit_char_newline.
      * apply Forall_singleton, progress_text_not_newline.
    + rewrite !List.filter_app, Hfilter, filter_not_progress_digits by done.
      cbn [List.filter]. rewrite is_progress_progress_text. cbn [negb].
      rewrite (right_id_L [] (++)).
      replace (N.to_nat (N.succ k * Z.to_N (BATCH g)))
        with (N.to_nat (k * Z.to_N (BATCH g)) + N.to_nat (Z.to_N (BATCH g)))%nat by lia.
      rewrite visited_add, List.filter_app, fmap_app. f_equal.
      unfold ms. by rewrite w_tail_run_after, N2Nat.id.
Qed.

Lemma iter_mul16_seed_reference g tid (k : N) :
  digits_ok g → 0 ≤ tid ≤ 3 →
  N.iter k mul16 (seed g tid) = reference g (Z.to_N (tid + 4 * Z.of_N k)).
Proof.
  intros Hg Htid.
  destruct (value_worker_buffer g tid k Hg Htid) as [[Hlen Hds] Hval].
  destruct (valid_reference g (Z.to_N (tid + 4 * Z.of_N k)) Hg) as [[Hlen' Hds'] Hval'].
  apply value_inj; [done|done|lia|].
  rewrite Hval, Hval'. do 2 f_equal. lia.
Qed.

Example worker_match_lines_small :
  (w ← worker_run small_globals 3 2; Ok (match_lines (w_out w)))
  = Ok [list_ascii_of_string "2048"; list_ascii_of_string "4288";
        list_ascii_of_string "8608"]
  ∧ expected_matches small_globals 3 6
    = [list_ascii_of_string "2048"; list_ascii_of_string "4288";
       list_ascii_of_string "8608"].
Proof. split; reflexivity. Qed.

(** X7.  A worker reports exactly the all-even buffers it computes.  As long
    as the counter fits [long long], after [k] rounds the lines of the output
    of worker [tid] other than its progress lines are the match lines of
    those among [2^(tid + 4j) mod 10^DIGITS], [j = 1, ..., k * BATCH], whose
    [DIGITS] digits are all even, in the order of [j]: none is missed, none is
    written twice, nothing else is written.  The seed itself, [j = 0], is
    never tested. *)
Theorem worker_match_lines g (tid : Z) (k : N) :
  globals_ok g → 0 ≤ tid ≤ 3 → Z.of_N k * BATCH g ≤ LLONG_MAX →
  ∃ w, worker_run g tid k = Ok w
     ∧ match_lines (w_out w)
       = expected_matches g tid (N.to_nat (k * Z.to_N (BATCH g))).
Proof.
  intros Hg Htid Hmax. pose proof Hg as [Hdg _].
  exists (run_after g tid k). split; [by apply worker_run_spec|].
  destruct (run_after_out_matches g tid k Hg Htid) as (ls & Hout & Hnl & Hfilter).
  unfold match_lines.
  rewrite Hout, <- (right_id_L [] (++) (unlines ls)), lines_unlines by done.
  cbn [lines]. rewrite (right_id_L [] (++)), Hfilter.
  unfold expected_matches, visited. do 2 f_equal.
  apply list_fmap_ext. intros _ j _.
  rewrite iter_mul16_seed_reference by done. do 2 f_equal. lia.
Qed.

Lemma worker_match_lines_witness :
  globals_ok small_globals ∧ 0 ≤ 3 ≤ 3
  ∧ Z.of_N 2 * BATCH small_globals ≤ LLONG_MAX
  ∧ ∃ w, worker_run small_globals 3 2 = Ok w
       ∧ match_lines (w_out w)
         = expected_matches small_globals 3
             (N.to_nat (2 * Z.to_N (BATCH small_globals))).
Proof.
  split; [solve_globals_ok|]. split; [lia|].
  split; [unfold LLONG_MAX; simpl; lia|].
  apply (worker_match_lines small_globals 3 2);
    [solve_globals_ok | lia | unfold LLONG_MAX; simpl; lia].
Defined.

(** ** Thread numbers above 3 *)

Lemma seed_bounded g tid : 0 ≤ tid ≤ 27 → Forall bounded (seed g tid).
Proof.
  intros Htid. unfold seed. constructor.
  - unfold bounded.
    assert (0 < 2 ^ tid ≤ 2 ^ 27) as Hpow
      by (split; [apply Z.pow_pos_nonneg; lia | apply Z.pow_le_mono_r; lia]).
    lia.
  - apply Forall_replicate. unfold bounded. lia.
Qed.

Lemma length_seed g tid : 0 < DIGITS g → Z.of_nat (length (seed g tid)) = DIGITS g.
Proof. intros Hd. unfold seed. simpl. rewrite length_replicate. lia. Qed.

Example worker_buffer_thread_4 :
  worker_buffer small_globals 4 0 = Ok [16; 0; 0; 0]
  ∧ worker_buffer small_globals 4 1 = Ok [6; 5; 2; 0]
  ∧ worker_buffer small_globals 0 2 = Ok [6; 5; 2; 0].
Proof. repeat split; reflexivity. Qed.

(** X8.  Initialisation relies on the thread number being at most 3.  For a
    thread number from 4 to 27 it leaves [2^tid] at index 0, which is not a
    digit, so the buffer is no digit buffer; the first application of
    [times16] repairs it, and after [k + 1] applications the buffer is a
    digit buffer that stands for [2^(tid + 4(k+1)) mod 10^DIGITS]: such a
    thread would repeat exponents of the threads 0 to 3. *)
Theorem worker_init_extra_thread g (tid : Z) (k : N) :
  digits_ok g → 4 ≤ tid ≤ 27 →
  ∃ w tail,
    worker_init g tid = Ok w
    ∧ w_tail w !! 0%nat = Some (2 ^ tid)
    ∧ ¬ valid g (w_tail w)
    ∧ worker_buffer g tid (N.succ k) = Ok tail
    ∧ valid g tail
    ∧ value tail = 2 ^ (tid + 4 * (Z.of_N k + 1)) `mod` 10 ^ DIGITS g.
Proof.
  intros Hg Htid. pose proof Hg as [Hd _].
  assert (2 ^ 4 ≤ 2 ^ tid) as Hpow by (apply Z.pow_le_mono_r; lia).
  pose proof (valid_mul16_length g (seed g tid) (length_seed g tid Hd)) as Hv1.
  set (s1 := apply16 (seed g tid, [])).
  pose proof (valid_iter_apply16 g k s1 Hv1) as Hvk.
  pose proof (fst_iter_apply16 k s1) as Hfst.
  eexists _, (N.iter k apply16 s1).1.
  split; [apply worker_init_spec; (done || lia)|]. cbn [w_tail].
  split; [done|].
  split.
  { intros [_ Hds]. unfold seed in Hds. apply Forall_cons in Hds as [Hdig _].
    unfold digit in Hdig. lia. }
  split.
  { unfold worker_buffer. rewrite worker_init_spec by (done || lia).
    cbn [mbind result_bind w_tail w_out].
    unfold times16_iter. rewrite N.iter_succ_r. cbn [mbind result_bind].
    rewrite times16_bounded_spec
      by (done || by apply length_seed || apply seed_bounded; lia).
    match goal with
    | |- context [N.iter k ?F (Ok ?s)] =>
        change (N.iter k F (Ok s)) with (times16_iter g k s1)
    end.
    rewrite times16_iter_spec by done. cbn [mbind result_bind].
    by destruct (N.iter k apply16 s1). }
  split; [done|].
  rewrite Hfst. unfold s1, apply16. cbn [fst].
  destruct (value_iter_mul16 k (mul16 (seed g tid)) (Forall_digit_mul16_from _ _))
    as (_ & _ & ->).
  unfold mul16 at 2. rewrite length_mul16_from, value_mul16_length, length_seed by done.
  rewrite value_seed, Z.mul_mod_idemp_l by (apply Z.pow_nonzero; lia).
  f_equal.
  replace (tid + 4 * (Z.of_N k + 1)) with (tid + 4 + 4 * Z.of_N k) by lia.
  rewrite !Z.pow_add_r, Z.pow_mul_r by lia. done.
Qed.

Lemma worker_init_extra_thread_witness :
  digits_ok small_globals ∧ 4 ≤ 5 ≤ 27
  ∧ ∃ w tail,
      worker_init small_globals 5 = Ok w
      ∧ w_tail w !! 0%nat = Some (2 ^ 5)
      ∧ ¬ valid small_globals (w_tail w)
      ∧ worker_buffer small_globals 5 (N.succ 2) = Ok tail
      ∧ valid small_globals tail
      ∧ value tail = 2 ^ (5 + 4 * (Z.of_N 2 + 1)) `mod` 10 ^ DIGITS small_globals.
Proof.
  split; [solve_digits_ok|]. split; [lia|].
  apply (worker_init_extra_thread small_globals 5 2); [solve_digits_ok | lia].
Defined.

(** X9.  For a thread number of 31 or more the doubling of line 63
    overflows [int]: the 31st doubling would compute [2^31].  In the model
    initialisation yields [Overflow]. *)
Theorem worker_init_overflow g (tid : Z) :
  digits_ok g → 31 ≤ tid →
  worker_init g tid = Err Overflow.
Proof.
  intros [Hd _] Htid. unfold worker_init, alloc_zeroed.
  rewrite bool_decide_true by done. cbn [mbind result_bind].
  unfold store. rewrite bool_decide_true by (rewrite length_replicate; lia).
  cbn [mbind result_bind]. change (Z.to_nat 0) with 0%nat.
  rewrite <- (seed_state_0 g) by done.
  assert (N.iter 31 (loop_step (λ s : Z * list Z, bool_decide (s.1 < tid)) seed_body)
            (Ok (seed_state g 0)) = Err Overflow) as H31.
  { change 31%N with (N.succ 30). rewrite N.iter_succ.
    rewrite (iter_trajectory _ _ (seed_state g) 30 30); [| |lia].
    - unfold loop_step. cbn [mbind result_bind].
      rewrite bool_decide_true by (simpl; lia).
      unfold seed_state, seed, seed_body.
      rewrite load_head. cbn [mbind result_bind]. done.
    - intros k Hk. split.
      + apply bool_decide_eq_true. simpl. lia.
      + apply seed_body_seed_state. lia. }
  unfold while.
  replace (Z.to_N tid) with ((Z.to_N tid - 31) + 31)%N by lia.
  by rewrite N.iter_add, H31, iter_loop_step_err.
Qed.

Lemma worker_init_overflow_witness :
  digits_ok program_globals ∧ 31 ≤ 31
  ∧ worker_init program_globals 31 = Err Overflow.
Proof.
  split; [solve_digits_ok|]. split; [lia|].
  apply (worker_init_overflow program_globals 31); [solve_digits_ok | lia].
Defined.

(** ** The batch loop at the limits of [BATCH] *)

Lemma batch_state_0 (w : worker) : batch_state w 0 = (0, w).
Proof.
  unfold batch_state, worker_after. destruct w. simpl. do 2 f_equal. lia.
Qed.

Lemma batch_body_batch_state_counter g (w : worker) (k : N) :
  digits_ok g → valid g (w_tail w) →
  Z.of_N k < INT_MAX →
  0 ≤ w_steps w → w_steps w + Z.of_N k < LLONG_MAX →
  batch_body g (batch_state w k) = Ok (batch_state w (N.succ k)).
Proof.
  intros Hg Hv Hk H0 Hmax. unfold batch_state, batch_body.
  unfold worker_step.
  rewrite times16_spec by (done || by apply valid_worker_after).
  cbn [mbind result_bind].
  rewrite llong_ok by (unfold worker_after, LLONG_MIN; simpl; lia).
  cbn [mbind result_bind].
  rewrite int_ok by (unfold INT_MIN, INT_MAX in *; lia). cbn [mbind result_bind].
  rewrite worker_after_succ, N2Z.inj_succ. done.
Qed.

Lemma worker_step_spec_digits g (w : worker) :
  digits_ok g → valid g (w_tail w) →
  LLONG_MIN ≤ w_steps w + 1 ≤ LLONG_MAX →
  worker_step g w = Ok (worker_after w 1).
Proof.
  intros Hg Hv Hsteps. unfold worker_step.
  rewrite times16_spec by done. cbn [mbind result_bind].
  by rewrite llong_ok by done.
Qed.

Lemma worker_round_counter_limit g (tid : Z) (w : worker) (j : N) :
  Z.of_N j = INT_MAX →
  digits_ok g → INT_MAX < BATCH g → valid g (w_tail w) →
  0 ≤ w_steps w → w_steps w + INT_MAX < LLONG_MAX →
  worker_round g tid w = Err Overflow.
Proof.
  intros Hj Hg Hb Hv H0 Hmax.
  assert (N.iter (N.succ j) (loop_step (batch_cond g) (batch_body g)) (Ok (0, w))
          = Err Overflow) as Hiter.
  { rewrite N.iter_succ, <- batch_state_0.
    rewrite (iter_trajectory _ _ (batch_state w) j j); [| |lia].
    - unfold loop_step. cbn [mbind result_bind].
      unfold batch_cond. rewrite bool_decide_true by (simpl; lia).
      unfold batch_state, batch_body.
      rewrite worker_step_spec_digits.
      + cbn [mbind result_bind]. unfold int.
        by rewrite bool_decide_false by lia.
      + done.
      + by apply valid_worker_after.
      + unfold worker_after, LLONG_MIN. simpl. lia.
    - intros k Hk. split.
      + apply bool_decide_eq_true. simpl. lia.
      + apply batch_body_batch_state_counter; (done || lia). }
  unfold worker_round, while.
  replace (Z.to_N (BATCH g)) with ((Z.to_N (BATCH g) - N.succ j) + N.succ j)%N
    by (unfold INT_MAX in *; lia).
  by rewrite N.iter_add, Hiter, iter_loop_step_err.
Qed.

(** X10.  The counter of the batch loop is an [int] compared with the
    [long long] [BATCH]: when [BATCH] is above [INT_MAX], the counter reaches
    [INT_MAX] with the condition still true and its increment overflows.  In
    the model the round yields [Overflow] and no progress line is written. *)
Theorem worker_round_long_batch g (tid : Z) (w : worker) :
  digits_ok g → INT_MAX < BATCH g → valid g (w_tail w) →
  0 ≤ w_steps w → w_steps w + INT_MAX < LLONG_MAX →
  worker_round g tid w = Err Overflow.
Proof.
  intros Hg Hb Hv H0 Hmax.
  by apply (worker_round_counter_limit g tid w (Z.to_N INT_MAX)).
Qed.

Lemma worker_round_long_batch_witness :
  digits_ok {| DIGITS := 4; BATCH := 3000000000 |}
  ∧ INT_MAX < BATCH {| DIGITS := 4; BATCH := 3000000000 |}
  ∧ valid {| DIGITS := 4; BATCH := 3000000000 |}
      (w_tail {| w_tail := [1; 0; 0; 0]; w_steps := 0; w_out := [] |})
  ∧ 0 ≤ w_steps {| w_tail := [1; 0; 0; 0]; w_steps := 0; w_out := [] |}
  ∧ w_steps {| w_tail := [1; 0; 0; 0]; w_steps := 0; w_out := [] |} + INT_MAX
    < LLONG_MAX
  ∧ worker_round {| DIGITS := 4; BATCH := 3000000000 |} 0
      {| w_tail := [1; 0; 0; 0]; w_steps := 0; w_out := [] |}
    = Err Overflow.
Proof.
  split; [solve_digits_ok|]. split; [unfold INT_MAX; simpl; lia|].
  split; [solve_valid|]. split; [simpl; lia|].
  split; [unfold INT_MAX, LLONG_MAX; simpl; lia|].
  apply (worker_round_long_batch {| DIGITS := 4; BATCH := 3000000000 |} 0
           {| w_tail := [1; 0; 0; 0]; w_steps := 0; w_out := [] |});
    [ solve_digits_ok | unfold INT_MAX; simpl; lia | solve_valid | simpl; lia
    | unfold INT_MAX, LLONG_MAX; simpl; lia ].
Defined.

(** X11.  With [BATCH] zero or negative the batch loop does not run: a round
    applies the multiplier not once, leaves buffer and counter as they are,
    and writes the progress line with the unchanged count. *)
Theorem worker_round_empty_batch g (tid : Z) (w : worker) :
  BATCH g ≤ 0 →
  worker_round g tid w
  = Ok {| w_tail := w_tail w; w_steps := w_steps w;
          w_out := w_out w ++ progress_line (w_steps w) tid |}.
Proof.
  intros Hb. unfold worker_round, while.
  replace (Z.to_N (BATCH g)) with 0%N by lia. cbn [N.iter mbind result_bind].
  unfold batch_cond. cbn [fst]. rewrite bool_decide_false by lia. done.
Qed.

Lemma worker_round_empty_batch_witness :
  BATCH {| DIGITS := 4; BATCH := 0 |} ≤ 0
  ∧ worker_round {| DIGITS := 4; BATCH := 0 |} 2
      {| w_tail := [4; 0; 0; 0]; w_steps := 0; w_out := [] |}
    = Ok {| w_tail := w_tail {| w_tail := [4; 0; 0; 0]; w_steps := 0; w_out := [] |};
            w_steps := w_steps {| w_tail := [4; 0; 0; 0]; w_steps := 0; w_out := [] |};
            w_out := w_out {| w_tail := [4; 0; 0; 0]; w_steps := 0; w_out := [] |}
                     ++ progress_line
                          (w_steps {| w_tail := [4; 0; 0; 0]; w_steps := 0; w_out := [] |}) 2 |}.
Proof.
  split; [simpl; lia|].
  apply (worker_round_empty_batch {| DIGITS := 4; BATCH := 0 |} 2
           {| w_tail := [4; 0; 0; 0]; w_steps := 0; w_out := [] |}).
  simpl; lia.
Defined.

(** ** How long a worker runs *)

Lemma worker_run_err_add g tid (k m : N) e :
  worker_run g tid k = Err e → worker_run g tid (m + k) = Err e.
Proof.
  intros Hk. induction m as [|m IH] using N.peano_ind; [done|].
  replace (N.succ m + k)%N with (N.succ (m + k)) by lia.
  by rewrite worker_run_succ, IH.
Qed.

(** X12.  The step counter is the only thing that ever stops a worker.  With
    globals in range, [BATCH] positive and a thread number in [0,3], the run
    reaches the end of round [k] exactly when [k * BATCH] fits [long long],
    and fails with [Overflow] exactly when it does not: the arithmetic on the
    buffer, the array accesses and the loop counters never fail. *)
Theorem worker_run_fails_iff g (tid : Z) (k : N) :
  globals_ok g → 0 < BATCH g → 0 ≤ tid ≤ 3 →
  ((∃ w, worker_run g tid k = Ok w) ↔ Z.of_N k * BATCH g ≤ LLONG_MAX)
  ∧ (worker_run g tid k = Err Overflow ↔ LLONG_MAX < Z.of_N k * BATCH g).
Proof.
  intros Hg Hb Htid.
  assert (LLONG_MAX < Z.of_N k * BATCH g → worker_run g tid k = Err Overflow) as Hfail.
  { intros Hover.
    set (k0 := Z.to_N (LLONG_MAX `div` BATCH g)).
    pose proof (Z.mul_div_le LLONG_MAX (BATCH g) Hb) as Hle.
    pose proof (Z.mul_succ_div_gt LLONG_MAX (BATCH g) Hb) as Hgt.
    assert (0 ≤ LLONG_MAX `div` BATCH g) as Hq
      by (apply Z.div_pos; [unfold LLONG_MAX|]; lia).
    assert (Z.of_N k0 = LLONG_MAX `div` BATCH g) as Hk0 by (unfold k0; lia).
    assert (N.succ k0 ≤ k)%N as Hk by nia.
    replace k with ((k - N.succ k0) + N.succ k0)%N by lia.
    apply worker_run_err_add, worker_run_overflow; [done | done | lia | lia]. }
  split; split.
  - intros [w Hw]. destruct (Z_le_gt_dec (Z.of_N k * BATCH g) LLONG_MAX); [done|].
    rewrite Hfail in Hw by lia. discriminate.
  - intros Hle. eexists. by apply worker_run_spec.
  - intros Herr. destruct (Z_le_gt_dec (Z.of_N k * BATCH g) LLONG_MAX); [|lia].
    rewrite worker_run_spec in Herr by done. discriminate.
  - exact Hfail.
Qed.

Lemma worker_run_fails_iff_witness :
  globals_ok program_globals ∧ 0 < BATCH program_globals ∧ 0 ≤ 2 ≤ 3
  ∧ ((∃ w, worker_run program_globals 2 10000000000 = Ok w)
       ↔ Z.of_N 10000000000 * BATCH program_globals ≤ LLONG_MAX)
  ∧ (worker_run program_globals 2 10000000000 = Err Overflow
       ↔ LLONG_MAX < Z.of_N 10000000000 * BATCH program_globals).
Proof.
  split; [solve_globals_ok|]. split; [simpl; lia|]. split; [lia|].
  apply (worker_run_fails_iff program_globals 2 10000000000);
    [solve_globals_ok | simpl; lia | lia].
Defined.
